(** * containerd-metrics: the snapshot/commit correlation engine

    A shallow embedding of [dev/containerd-metrics/main.go]: the three
    process-wide maps [prepByKey], [commitByKey] and [commitByName], the
    event switch of [serveContainerdMetrics] and the layer-chain
    reconstruction of [pushContainerMetrics]. *)

From Stdlib Require Import ZArith Lia List String Ascii.
From stdpp Require Import gmap strings list fin_maps.
From Equations Require Import Equations.

Local Open Scope Z_scope.

(** ** Machine integers, instants and durations *)

(** [time.Duration] is an [int64] count of nanoseconds; Go's [+] on it
    wraps around. *)
Definition minDuration : Z := - 2 ^ 63.
Definition maxDuration : Z := 2 ^ 63 - 1.

Definition wrap64 (z : Z) : Z := (z + 2 ^ 63) mod 2 ^ 64 - 2 ^ 63.

Definition add64 (a b : Z) : Z := wrap64 (a + b).

(** The instants this program handles all come from [time.Now()] and so
    carry a monotonic clock reading, an [int64] count of nanoseconds;
    [time.Since] subtracts two such readings with [subMono], which
    saturates instead of wrapping. *)
Definition subMono (t u : Z) : Z :=
  let d := wrap64 (t - u) in
  if (d <? 0) && (u <? t) then maxDuration
  else if (0 <? d) && (t <? u) then minDuration
  else d.

(** [time.Since(t)], evaluated when the clock reads [now]. *)
Definition Since (now t : Z) : Z := subMono now t.

(** ** Data model *)

Module Prep.
Record t : Type := mk { T : Z; Parent : string; Name : string }.
End Prep.

Module Commit.
Record t : Type := mk { Dur : Z; Parent : string; Name : string; Key : string }.
End Commit.

Module Layer.
Record t : Type := mk { ID : string; Prep : Z }.
End Layer.

Module Image.
Record t : Type := mk { Name : string; TotalPrep : Z; Layer : list Layer.t }.
End Image.

#[global] Instance Prep_eq_dec : EqDecision Prep.t.
Proof. solve_decision. Defined.
#[global] Instance Commit_eq_dec : EqDecision Commit.t.
Proof. solve_decision. Defined.
#[global] Instance Layer_eq_dec : EqDecision Layer.t.
Proof. solve_decision. Defined.
#[global] Instance Image_eq_dec : EqDecision Image.t.
Proof. solve_decision. Defined.

(** The package-level variables.  A [*Prep] is held by [prepByKey] alone
    and its cell is never written after allocation, so that map holds the
    record itself.  A [*Commit] is stored twice, in [commitByKey] and in
    [commitByName]: Commit cells live in [heap], in allocation order, and
    the two maps hold addresses (indexes into [heap]). *)
Record Store : Type := mkStore {
  prepByKey    : gmap string Prep.t;
  heap         : list Commit.t;
  commitByKey  : gmap string nat;
  commitByName : gmap string nat
}.

(** [make(map[string]*Prep)] and friends at program start. *)
Definition initStore : Store :=
  {| prepByKey := ∅; heap := []; commitByKey := ∅; commitByName := ∅ |}.

(** ** Events and log records *)

(** The event types the switch distinguishes, with the fields it reads;
    [OtherEvent] is any type without a case. *)
Inductive Event : Type :=
| SnapshotPrepare (Key Parent : string)
| SnapshotCommit (Key Name : string)
| SnapshotRemove (Key : string)
| ImageDelete (Name : string)
| ContainerCreate (ID Image : string)
| OtherEvent.

(** What the loop's [select] yields: an error of the subscription, a
    signal, or an envelope whose payload [typeurl.UnmarshalAny] either
    rejects or decodes. *)
Inductive Input : Type :=
| SubscriptionError (err : string)
| Signal
| Undecodable
| Decoded (evt : Event).

Inductive Level : Type := DebugLevel | InfoLevel | WarnLevel.

#[global] Instance Level_eq_dec : EqDecision Level.
Proof. solve_decision. Defined.

(** One constructor per logging call of the program. *)
Inductive LogRecord : Type :=
| LogSkippingEvent
| LogPrep (obj : Prep.t)
| LogCommitWithoutPrep (key name : string)
| LogCommit (obj : Commit.t)
| LogSnapshotRemove (key : string)
| LogImageDelete (name : string)
| LogImageWithoutPrep (image id : string)
| LogImagePulled (instanceId : string) (image : Image.t) (id initialPrep : string).

Definition level (r : LogRecord) : Level :=
  match r with
  | LogSkippingEvent => WarnLevel
  | LogPrep _ | LogCommitWithoutPrep _ _ | LogCommit _ | LogImageWithoutPrep _ _ => DebugLevel
  | LogSnapshotRemove _ | LogImageDelete _ | LogImagePulled _ _ _ _ => InfoLevel
  end.

Definition message (r : LogRecord) : string :=
  match r with
  | LogSkippingEvent => "skipping event"
  | LogPrep _ => "prep"
  | LogCommitWithoutPrep _ _ => "found commit without prep"
  | LogCommit _ => "commit"
  | LogSnapshotRemove _ => "snapshot remove"
  | LogImageDelete _ => "image delete"
  | LogImageWithoutPrep _ _ => "image witout prep"
  | LogImagePulled _ _ _ _ => "image pulled"
  end.

(** ** Outcomes *)

(** A piece of code returns a value, panics (index out of range, invalid
    address), or is still running when the iteration budget is spent.
    The one loop without a bound of its own is the chain walk of
    [pushContainerMetrics]; its budget [fuel] counts iterations of the
    loop body.  That the code returns is a statement about some budget
    (and then about every larger one); that it never returns, about all
    budgets. *)
Inductive result (A : Type) : Type :=
| Done (a : A)
| Panic
| Diverge.
Arguments Done {A} a.
Arguments Panic {A}.
Arguments Diverge {A}.

#[global] Instance result_bind : MBind result := λ A B k r,
  match r with
  | Done a => k a
  | Panic => Panic
  | Diverge => Diverge
  end.

(** ** [pushContainerMetrics] *)

(** [c, ok = commitByName[name]] followed by the reads of [c]'s fields:
    [Done None] is [ok = false]. *)
Definition lookupCommit (st : Store) (name : string) : result (option Commit.t) :=
  match commitByName st !! name with
  | None => Done None
  | Some a =>
      match heap st !! a with
      | Some c => Done (Some c)
      | None => Panic
      end
  end.

(** The [for ok { ... }] loop, entered with [c, ok] already looked up.
    Each iteration of the body spends one unit of [fuel]. *)
Fixpoint walk (fuel : nat) (st : Store) (c : option Commit.t) (img : Image.t)
  : result Image.t :=
  match c with
  | None => Done img
  | Some c =>
      match fuel with
      | O => Diverge
      | S fuel' =>
          let img' :=
            {| Image.Name := Image.Name img;
               Image.TotalPrep := add64 (Image.TotalPrep img) (Commit.Dur c);
               Image.Layer := Image.Layer img ++
                 [ {| Layer.ID := Commit.Name c; Layer.Prep := Commit.Dur c |} ] |} in
          c' ← lookupCommit st (Commit.Parent c) ;
          walk fuel' st c' img'
      end
  end.

(** [s[i]] for a Go [int] index. *)
Definition index {A : Type} (s : list A) (i : Z) : option A :=
  if i <? 0 then None else s !! Z.to_nat i.

(** [s[i], s[j] = s[j], s[i]]: both operands are read, then [s[i]] and
    [s[j]] are written, in that order. *)
Definition swap {A : Type} (s : list A) (i j : Z) : result (list A) :=
  match index s i, index s j with
  | Some x, Some y => Done (<[Z.to_nat j := x]> (<[Z.to_nat i := y]> s))
  | _, _ => Panic
  end.

(** [for i, j := ...; i < j; i, j = i+1, j-1 { swap }], from the given
    [i] and [j]. *)
Equations? reverseFrom {A : Type} (i j : Z) (s : list A) : result (list A)
  by wf (Z.to_nat (j - i)) lt :=
reverseFrom i j s with Z_lt_dec i j := {
  | left _ with swap s i j := {
      | Done s' => reverseFrom (i + 1) (j - 1) s'
      | Panic => Panic
      | Diverge => Diverge };
  | right _ => Done s }.
Proof. lia. Qed.

Definition reverseLayers (s : list Layer.t) : result (list Layer.t) :=
  reverseFrom 0 (Z.of_nat (length s) - 1) s.

(** [strings.Split(s, "/")]. *)
Fixpoint splitSlash (s : string) : list string :=
  match s with
  | EmptyString => [EmptyString]
  | String ch rest =>
      if Ascii.eqb ch "/"%char then EmptyString :: splitSlash rest
      else match splitSlash rest with
           | seg :: segs => String ch seg :: segs
           | [] => [String ch EmptyString]
           end
  end.

Definition instanceIDOf (name : string) : string :=
  let segs := splitSlash name in
  if Nat.eqb (length segs) 3 then default EmptyString (segs !! 2%nat) else EmptyString.

(** The function reads the store and writes only its local [img]; what it
    yields is the log records it emits. *)
Definition pushContainerMetrics (fuel : nat) (st : Store) (id image : string)
  : result (list LogRecord) :=
  let img := {| Image.Name := image; Image.TotalPrep := 0; Image.Layer := [] |} in
  match prepByKey st !! id with
  | None => Done [LogImageWithoutPrep image id]
  | Some initialPrep =>
      c ← lookupCommit st (Prep.Parent initialPrep) ;
      img ← walk fuel st c img ;
      layers ← reverseLayers (Image.Layer img) ;
      let img := {| Image.Name := Image.Name img;
                    Image.TotalPrep := Image.TotalPrep img;
                    Image.Layer := layers |} in
      Done [LogImagePulled (instanceIDOf (Image.Name img)) img id (Prep.Parent initialPrep)]
  end.

(** ** The event switch of [serveContainerdMetrics] *)

(** One pass through the [switch], with the clock reading [now]. *)
Definition handleEvent (fuel : nat) (now : Z) (evt : Event) (st : Store)
  : result (Store * list LogRecord) :=
  match evt with
  | SnapshotPrepare key parent =>
      let p := {| Prep.T := now; Prep.Parent := parent; Prep.Name := EmptyString |} in
      Done ({| prepByKey := <[key := p]> (prepByKey st);
               heap := heap st;
               commitByKey := commitByKey st;
               commitByName := commitByName st |},
            [LogPrep p])
  | SnapshotCommit key name =>
      match prepByKey st !! key with
      | None => Done (st, [LogCommitWithoutPrep key name])
      | Some p =>
          let c := {| Commit.Dur := Since now (Prep.T p);
                      Commit.Parent := Prep.Parent p;
                      Commit.Name := name;
                      Commit.Key := key |} in
          let a := length (heap st) in
          Done ({| prepByKey := prepByKey st;
                   heap := heap st ++ [c];
                   commitByKey := <[key := a]> (commitByKey st);
                   commitByName := <[name := a]> (commitByName st) |},
                [LogCommit c])
      end
  | SnapshotRemove key => Done (st, [LogSnapshotRemove key])
  | ImageDelete name => Done (st, [LogImageDelete name])
  | ContainerCreate id image =>
      logs ← pushContainerMetrics fuel st id image ;
      Done (st, logs)
  | OtherEvent => Done (st, [])
  end.

(** How a run of the loop over a finite input prefix stands. *)
Inductive Status : Type :=
| Waiting                       (* blocked in [select], inputs used up *)
| Returned (err : option string) (* [return err] / [return nil] *)
| Panicked
| Diverged.

Record Run : Type := mkRun { store : Store; logs : list LogRecord; status : Status }.

(** The [for { select ... }] loop over the inputs, each paired with the
    clock reading at which it is handled. *)
Fixpoint serveLoop (fuel : nat) (inputs : list (Z * Input)) (st : Store)
  (out : list LogRecord) : Run :=
  match inputs with
  | [] => mkRun st out Waiting
  | (now, inp) :: rest =>
      match inp with
      | SubscriptionError err => mkRun st out (Returned (Some err))
      | Signal => mkRun st out (Returned None)
      | Undecodable => serveLoop fuel rest st (out ++ [LogSkippingEvent])
      | Decoded evt =>
          match handleEvent fuel now evt st with
          | Done (st', l) => serveLoop fuel rest st' (out ++ l)
          | Panic => mkRun st out Panicked
          | Diverge => mkRun st out Diverged
          end
      end
  end.

Definition serveContainerdMetrics (fuel : nat) (inputs : list (Z * Input)) : Run :=
  serveLoop fuel inputs initStore [].

(** ** Vocabulary of the statements *)

(** [commitByName[name]] yields a pointer to the cell [c]. *)
Definition resolves (st : Store) (name : string) (c : Commit.t) : Prop :=
  ∃ a, commitByName st !! name = Some a ∧ heap st !! a = Some c.

(** Following parent names from [name] meets exactly the cells [cs], the
    nearest first, and then a name with no entry in [commitByName]. *)
Fixpoint chainFrom (st : Store) (name : string) (cs : list Commit.t) : Prop :=
  match cs with
  | [] => commitByName st !! name = None
  | c :: cs' => resolves st name c ∧ chainFrom st (Commit.Parent c) cs'
  end.

Definition layerOf (c : Commit.t) : Layer.t :=
  {| Layer.ID := Commit.Name c; Layer.Prep := Commit.Dur c |}.

(** The lookup [c, ok = commitByName[name]] and the loop after it. *)
Definition walkFrom (fuel : nat) (st : Store) (name : string) (img : Image.t)
  : result Image.t :=
  c ← lookupCommit st name; walk fuel st c img.

(** Whether the walk from each name of [commitByName] stops within as
    many iterations as the map has entries. *)
Definition walksStop (st : Store) : bool :=
  forallb (λ name,
             match walkFrom (size (commitByName st)) st name
                     {| Image.Name := EmptyString; Image.TotalPrep := 0; Image.Layer := [] |}
             with Diverge => false | _ => true end)
          (elements (dom (commitByName st))).

(** The name the loop looks up after the cell found under [name]. *)
Definition parentName (st : Store) (name : string) : option string :=
  a ← commitByName st !! name; c ← heap st !! a; Some (Commit.Parent c).

(** The name reached from [name] after [k] successful lookups. *)
Fixpoint ancestor (st : Store) (k : nat) (name : string) : option string :=
  match k with
  | O => Some name
  | S k' => parentName st name ≫= ancestor st k'
  end.

(** No name is its own ancestor. *)
Definition acyclic (st : Store) : Prop :=
  ∀ name k, (0 < k)%nat → ancestor st k name ≠ Some name.

(** No name reached from [start] is its own ancestor. *)
Definition acyclicFrom (st : Store) (start : string) : Prop :=
  ∀ j k name, ancestor st j start = Some name → (0 < k)%nat →
    ancestor st k name ≠ Some name.


(** Every entry of the two commit indexes points to a cell that carries
    the entry's own key, respectively name. *)
Definition indexConsistent (st : Store) : Prop :=
  (∀ key a, commitByKey st !! key = Some a →
     ∃ c, heap st !! a = Some c ∧ Commit.Key c = key) ∧
  (∀ name a, commitByName st !! name = Some a →
     ∃ c, heap st !! a = Some c ∧ Commit.Name c = name).

(** ** Interleaved event sequences *)

(** The loop over decoded events only. *)
Definition decode (tr : list (Z * Event)) : list (Z * Input) :=
  (λ te, (te.1, Decoded te.2)) <$> tr.

Definition runFrom (fuel : nat) (tr : list (Z * Event)) (st : Store) : Run :=
  serveLoop fuel (decode tr) st [].

(** An event sequence handled on its own, every event at clock reading 0. *)
Definition alone (evts : list Event) : list (Z * Event) := (λ e, (0, e)) <$> evts.

(** [tr] handles the events of [A] and of [B], each sequence in its own
    order, at clock readings of its own. *)
Inductive interleaves : list Event → list Event → list (Z * Event) → Prop :=
| interleaves_nil : interleaves [] [] []
| interleaves_left t e A B tr :
    interleaves A B tr → interleaves (e :: A) B ((t, e) :: tr)
| interleaves_right t e A B tr :
    interleaves A B tr → interleaves A (e :: B) ((t, e) :: tr).

(** The keys an event reads or writes in [prepByKey] and [commitByKey],
    the name it writes in [commitByName], the parent name it records. *)
Definition eventKeys (e : Event) : gset string :=
  match e with
  | SnapshotPrepare k _ | SnapshotCommit k _ | ContainerCreate k _ => {[ k ]}
  | _ => ∅
  end.

Definition eventNames (e : Event) : gset string :=
  match e with SnapshotCommit _ n => {[ n ]} | _ => ∅ end.

Definition eventParents (e : Event) : gset string :=
  match e with SnapshotPrepare _ p => {[ p ]} | _ => ∅ end.

Definition keysOf (evts : list Event) : gset string := ⋃ (eventKeys <$> evts).
Definition namesOf (evts : list Event) : gset string := ⋃ (eventNames <$> evts).
Definition parentsOf (evts : list Event) : gset string := ⋃ (eventParents <$> evts).

(** No key in common, and no parent recorded by one sequence is a name
    committed by the other. *)
Definition independent (A B : list Event) : Prop :=
  keysOf A ## keysOf B ∧ parentsOf A ## namesOf B ∧ parentsOf B ## namesOf A.

Definition owns (K N P : gset string) (e : Event) : Prop :=
  match e with
  | SnapshotPrepare k p => k ∈ K ∧ p ∈ P
  | SnapshotCommit k n => k ∈ K ∧ n ∈ N
  | ContainerCreate id _ => id ∈ K
  | _ => True
  end.

(** The cell an index entry points to. *)
Definition cellByName (st : Store) (name : string) : option Commit.t :=
  a ← commitByName st !! name; heap st !! a.

Definition cellByKey (st : Store) (key : string) : option Commit.t :=
  a ← commitByKey st !! key; heap st !! a.

(** Records with their durations and instants blanked. *)
Definition eraseDur (c : Commit.t) : Commit.t :=
  {| Commit.Dur := 0; Commit.Parent := Commit.Parent c;
     Commit.Name := Commit.Name c; Commit.Key := Commit.Key c |}.

Definition eraseLayer (l : Layer.t) : Layer.t :=
  {| Layer.ID := Layer.ID l; Layer.Prep := 0 |}.

Definition eraseImage (img : Image.t) : Image.t :=
  {| Image.Name := Image.Name img; Image.TotalPrep := 0;
     Image.Layer := eraseLayer <$> Image.Layer img |}.

Definition eraseTimes (r : LogRecord) : LogRecord :=
  match r with
  | LogPrep p => LogPrep {| Prep.T := 0; Prep.Parent := Prep.Parent p; Prep.Name := Prep.Name p |}
  | LogCommit c => LogCommit (eraseDur c)
  | LogImagePulled inst img id par => LogImagePulled inst (eraseImage img) id par
  | r => r
  end.

(** The records [pushContainerMetrics] emits for the containers in [K]. *)
Definition aboutContainer (K : gset string) (r : LogRecord) : bool :=
  match r with
  | LogImagePulled _ _ id _ | LogImageWithoutPrep _ id => bool_decide (id ∈ K)
  | _ => false
  end.

Definition reportsFor (K : gset string) (l : list LogRecord) : list LogRecord :=
  eraseTimes <$> List.filter (aboutContainer K) l.

(** Two stores agree on the keys [K] and the names [P] up to durations
    and instants, [P] being closed under parent links. *)
Record agree (K P : gset string) (s sO : Store) : Prop := mkAgree {
  agree_cons_l : indexConsistent s;
  agree_cons_r : indexConsistent sO;
  agree_prep : ∀ k, k ∈ K →
    Prep.Parent <$> prepByKey s !! k = Prep.Parent <$> prepByKey sO !! k;
  agree_prep_parent : ∀ k p, k ∈ K → prepByKey s !! k = Some p → Prep.Parent p ∈ P;
  agree_name : ∀ n, n ∈ P → eraseDur <$> cellByName s n = eraseDur <$> cellByName sO n;
  agree_closed : ∀ n c, n ∈ P → cellByName s n = Some c → Commit.Parent c ∈ P;
  agree_key : ∀ k, k ∈ K → eraseDur <$> cellByKey s k = eraseDur <$> cellByKey sO k
}.

(** Whether handling the event runs [pushContainerMetrics]. *)
Definition isCreate (e : Event) : bool :=
  match e with ContainerCreate _ _ => true | _ => false end.

(** ** Stores used as concrete instances *)

(** Four layers prepared and committed one on top of the other, then the
    rootfs snapshot of container ["r"] prepared on top of the last. *)
Definition fourLayerInputs : list (Z * Input) :=
  [ (0,   Decoded (SnapshotPrepare "a" ""));
    (10,  Decoded (SnapshotCommit "a" "base"));
    (20,  Decoded (SnapshotPrepare "b" "base"));
    (50,  Decoded (SnapshotCommit "b" "L1"));
    (60,  Decoded (SnapshotPrepare "c" "L1"));
    (100, Decoded (SnapshotCommit "c" "L2"));
    (110, Decoded (SnapshotPrepare "d" "L2"));
    (160, Decoded (SnapshotCommit "d" "L3"));
    (170, Decoded (SnapshotPrepare "r" "L3")) ].

Definition fourLayerStore : Store :=
  Eval vm_compute in store (serveContainerdMetrics 0 fourLayerInputs).



(** A snapshot committed under the name of its own parent, and the rootfs
    snapshot of container ["c"] prepared on top of it. *)
Definition selfParentInputs : list (Z * Input) :=
  [ (0, Decoded (SnapshotPrepare "k" "N"));
    (5, Decoded (SnapshotCommit "k" "N"));
    (6, Decoded (SnapshotPrepare "c" "N")) ].

Definition selfParentStore : Store :=
  Eval vm_compute in store (serveContainerdMetrics 0 selfParentInputs).

(** The four layers and the container's rootfs snapshot, and off their
    chain a snapshot committed under the name of its own parent. *)
Definition strayCycleStore : Store :=
  Eval vm_compute in
    store (serveContainerdMetrics 0
             (fourLayerInputs ++ [ (200, Decoded (SnapshotPrepare "k" "N"));
                                   (205, Decoded (SnapshotCommit "k" "N")) ])).




(** A one-layer image for container ["r"], and next to it the self-parent
    snapshot with container ["c"] on top. *)
Definition oneLayerEvents : list Event :=
  [ SnapshotPrepare "a" ""; SnapshotCommit "a" "L0"; SnapshotPrepare "r" "L0";
    ContainerCreate "r" "reg/repo/ws1" ].

Definition selfParentEvents : list Event :=
  [ SnapshotPrepare "k" "N"; SnapshotCommit "k" "N"; SnapshotPrepare "c" "N";
    ContainerCreate "c" "reg/repo/ws2" ].

(** The first sequence, then the second. *)
Definition oneAfterTheOther : list (Z * Event) :=
  [ (0, SnapshotPrepare "a" ""); (10, SnapshotCommit "a" "L0");
    (20, SnapshotPrepare "r" "L0"); (30, ContainerCreate "r" "reg/repo/ws1");
    (40, SnapshotPrepare "k" "N"); (50, SnapshotCommit "k" "N");
    (60, SnapshotPrepare "c" "N"); (70, ContainerCreate "c" "reg/repo/ws2") ].

(** The same events, the second container created before the first. *)
Definition quietEventsFirst : list (Z * Event) :=
  [ (0, SnapshotPrepare "a" ""); (10, SnapshotPrepare "k" "N");
    (20, SnapshotCommit "a" "L0"); (30, SnapshotCommit "k" "N");
    (40, SnapshotPrepare "r" "L0"); (50, SnapshotPrepare "c" "N") ].

Definition createsSwapped : list (Z * Event) :=
  quietEventsFirst ++
  [ (60, ContainerCreate "c" "reg/repo/ws2"); (70, ContainerCreate "r" "reg/repo/ws1") ].

(** Two one-layer images pulled side by side, in two orders. *)
Definition imageOne : list Event :=
  [ SnapshotPrepare "a" ""; SnapshotCommit "a" "L0"; SnapshotPrepare "r" "L0";
    ContainerCreate "r" "reg/repo/ws1" ].

Definition imageTwo : list Event :=
  [ SnapshotPrepare "k" ""; SnapshotCommit "k" "M0"; SnapshotPrepare "c" "M0";
    ContainerCreate "c" "reg/repo/ws2" ].

Definition sideBySide : list (Z * Event) :=
  [ (0, SnapshotPrepare "a" ""); (5, SnapshotPrepare "k" "");
    (20, SnapshotCommit "k" "M0"); (30, SnapshotCommit "a" "L0");
    (40, SnapshotPrepare "c" "M0"); (50, SnapshotPrepare "r" "L0");
    (60, ContainerCreate "c" "reg/repo/ws2"); (70, ContainerCreate "r" "reg/repo/ws1") ].

Definition inTurn : list (Z * Event) :=
  [ (0, SnapshotPrepare "a" ""); (10, SnapshotCommit "a" "L0");
    (20, SnapshotPrepare "r" "L0"); (30, ContainerCreate "r" "reg/repo/ws1");
    (40, SnapshotPrepare "k" ""); (50, SnapshotCommit "k" "M0");
    (60, SnapshotPrepare "c" "M0"); (70, ContainerCreate "c" "reg/repo/ws2") ].

(** ** Further vocabulary for the event loop *)

(** Inputs the loop only logs: undecodable envelopes and the event types
    whose case does nothing else. *)
Definition silent (inp : Input) : bool :=
  match inp with
  | Undecodable
  | Decoded (SnapshotRemove _) | Decoded (ImageDelete _) | Decoded OtherEvent => true
  | _ => false
  end.

(** The records those inputs produce. *)
Definition passThrough (r : LogRecord) : bool :=
  match r with
  | LogSkippingEvent | LogSnapshotRemove _ | LogImageDelete _ => true
  | _ => false
  end.

(** Inputs whose case writes one of the three maps. *)
Definition writesStore (inp : Input) : bool :=
  match inp with
  | Decoded (SnapshotPrepare _ _) | Decoded (SnapshotCommit _ _) => true
  | _ => false
  end.

Definition preparesKey (key : string) (inp : Input) : bool :=
  match inp with
  | Decoded (SnapshotPrepare k _) => bool_decide (k = key)
  | _ => false
  end.

(** Every committed key has a Prep, and so has the key of every cell. *)
Definition committedHavePrep (st : Store) : Prop :=
  dom (commitByKey st) ⊆ dom (prepByKey st) ∧
  ∀ c, c ∈ heap st → Commit.Key c ∈ dom (prepByKey st).

(** Slashes of an image reference. *)
Fixpoint countSlash (s : string) : nat :=
  match s with
  | EmptyString => O
  | String ch rest => if Ascii.eqb ch "/"%char then S (countSlash rest) else countSlash rest
  end.

Definition slashFree (s : string) : Prop := countSlash s = O.

(** * The state holder ([package state]) *)

Module State.

(** What the file takes from client-go and apimachinery: the values an
    informer store lists, [apimeta.Accessor] and [GetLabels] on them,
    label selectors with [Matches], the selector [labels.Parse] returns
    (its error is discarded by every caller; [None] is the nil
    interface), the type assertions to the four resource types, and the
    [ByKey] methods of the typed listers. *)
Class Cluster : Type := {
  Object : Type;
  Meta : Type;
  Labels : Type;
  Selector : Type;
  error : Type;
  ConfigMap : Type;
  Secret : Type;
  Service : Type;
  Pod : Type;
  Accessor : Object → Meta + error;
  GetLabels : Meta → Labels;
  Matches : Selector → Labels → bool;
  Parse : string → option Selector;
  asConfigMap : Object → option ConfigMap;
  asSecret : Object → option Secret;
  asService : Object → option Service;
  asPod : Object → option Pod;
  ConfigMapByKey : list Object → string → ConfigMap + error;
  SecretByKey : list Object → string → Secret + error;
  ServiceByKey : list Object → string → Service + error
}.

Section Holder.
Context {cluster : Cluster}.

(** [metav1.ListOptions], with the field the file reads from it outside
    of [NewStateHolder]. *)
Record ListOptions : Type := mkListOptions { LabelSelector : string }.

(** The listers of a [stateHolder], each by what one call of its
    [List()] yields.  Two calls see the same objects but not
    necessarily in the same order: they are two holders whose listings
    are permutations of each other. *)
Record stateHolder : Type := mkStateHolder {
  namespace : string;
  ConfigMapLister : list Object;
  SecretLister : list Object;
  ServiceLister : list Object;
  PodLister : list Object
}.

(** [for _, item := range items { if x, ok := item.(T); ok { append } }] *)
Fixpoint collect {T : Type} (assert : Object → option T) (items : list Object) : list T :=
  match items with
  | [] => []
  | item :: rest =>
      match assert item with
      | Some x => x :: collect assert rest
      | None => collect assert rest
      end
  end.

Definition ConfigMaps (sh : stateHolder) : list ConfigMap :=
  collect asConfigMap (ConfigMapLister sh).

Definition Secrets (sh : stateHolder) : list Secret :=
  collect asSecret (SecretLister sh).

Definition Services (sh : stateHolder) : list Service :=
  collect asService (ServiceLister sh).

Definition Pods (sh : stateHolder) : list Pod :=
  collect asPod (PodLister sh).

(** The loop of [filterWithLabels], [outItems] being what it has appended
    so far. *)
Fixpoint filterLoop (objs : list Object) (labelSelector : option Selector)
  (outItems : list Object) : list Object + error :=
  match objs with
  | [] => inl outItems
  | obj :: rest =>
      match Accessor obj with
      | inr err => inr err
      | inl meta =>
          match labelSelector with
          | Some sel =>
              if Matches sel (GetLabels meta)
              then filterLoop rest labelSelector (outItems ++ [obj])
              else filterLoop rest labelSelector outItems
          | None => filterLoop rest labelSelector (outItems ++ [obj])
          end
      end
  end.

Definition filterWithLabels (objs : list Object) (labelSelector : option Selector)
  : list Object + error :=
  filterLoop objs labelSelector [].

Definition withListOptions {T : Type} (assert : Object → option T)
  (items : list Object) (listOptions : ListOptions) : list T + error :=
  let selector := Parse (LabelSelector listOptions) in
  match filterWithLabels items selector with
  | inr err => inr err
  | inl filteredObjs => inl (collect assert filteredObjs)
  end.

Definition ServicesWithListOptions (sh : stateHolder) (listOptions : ListOptions)
  : list Service + error :=
  withListOptions asService (ServiceLister sh) listOptions.

Definition ConfigMapsWithListOptions (sh : stateHolder) (listOptions : ListOptions)
  : list ConfigMap + error :=
  withListOptions asConfigMap (ConfigMapLister sh) listOptions.

Definition PodsWithListOptions (sh : stateHolder) (listOptions : ListOptions)
  : list Pod + error :=
  withListOptions asPod (PodLister sh) listOptions.

(** [strings.Split] never yields an empty slice, but the test is there. *)
Definition getObjectKey (input defNs : string) : string :=
  let nsName := splitSlash input in
  if Nat.eqb (length nsName) 0 then (defNs ++ "/" ++ input)%string else input.

Definition GetConfigMap (sh : stateHolder) (key : string) : ConfigMap + error :=
  ConfigMapByKey (ConfigMapLister sh) (getObjectKey key (namespace sh)).

Definition GetSecret (sh : stateHolder) (key : string) : Secret + error :=
  SecretByKey (SecretLister sh) (getObjectKey key (namespace sh)).

Definition GetService (sh : stateHolder) (key : string) : Service + error :=
  ServiceByKey (ServiceLister sh) (getObjectKey key (namespace sh)).

(** Whether the selector keeps an object whose metadata can be read. *)
Definition keeps (labelSelector : option Selector) (obj : Object) : bool :=
  match Accessor obj, labelSelector with
  | inl meta, Some sel => Matches sel (GetLabels meta)
  | inl _, None => true
  | inr _, _ => false
  end.

Definition accessible (obj : Object) : Prop := ∃ meta, Accessor obj = inl meta.

End Holder.

(** A small cluster for concrete instances: services and pods carrying a
    list of label keys, and a tombstone without metadata; a selector is
    a label key that must be present, and ["!"] does not parse. *)
Inductive demoObject : Type :=
| DemoService (name : string) (labels : list string)
| DemoPod (name : string) (labels : list string)
| Tombstone.

Definition demoLabels (o : demoObject) : list string + string :=
  match o with
  | DemoService _ ls | DemoPod _ ls => inl ls
  | Tombstone => inr "object does not implement the Object interfaces"%string
  end.

Definition demoByKey (items : list demoObject) (key : string) : string + string :=
  inr "not found"%string.

#[export] Instance demoCluster : Cluster := {|
  Object := demoObject;
  Meta := list string;
  Labels := list string;
  Selector := string;
  error := string;
  ConfigMap := string;
  Secret := string;
  Service := string;
  Pod := string;
  Accessor := demoLabels;
  GetLabels := λ ls, ls;
  Matches := λ sel ls, bool_decide (sel ∈ ls);
  Parse := λ s, if bool_decide (s = "!"%string) then None else Some s;
  asConfigMap := λ _, None;
  asSecret := λ _, None;
  asService := λ o, match o with DemoService n _ => Some n | _ => None end;
  asPod := λ o, match o with DemoPod n _ => Some n | _ => None end;
  ConfigMapByKey := demoByKey;
  SecretByKey := demoByKey;
  ServiceByKey := demoByKey
|}.

Definition demoHolder : stateHolder :=
  {| namespace := "default";
     ConfigMapLister := [];
     SecretLister := [];
     ServiceLister := [ DemoService "web" ["app"; "tier"]; DemoPod "stray" ["app"];
                        DemoService "db" ["tier"] ];
     PodLister := [ DemoPod "web-0" ["app"]; DemoPod "db-0" [] ] |}.

(** The same holder as another call of [List()] may show it. *)
Definition reorderedHolder : stateHolder :=
  {| namespace := "default";
     ConfigMapLister := [];
     SecretLister := [];
     ServiceLister := [ DemoService "db" ["tier"]; DemoPod "stray" ["app"];
                        DemoService "web" ["app"; "tier"] ];
     PodLister := [ DemoPod "db-0" []; DemoPod "web-0" ["app"] ] |}.

(** The same holder after a tombstone entered the Pod store. *)
Definition staleHolder : stateHolder :=
  {| namespace := "default";
     ConfigMapLister := [];
     SecretLister := [];
     ServiceLister := ServiceLister demoHolder;
     PodLister := [ DemoPod "web-0" ["app"]; Tombstone; DemoPod "db-0" [] ] |}.

End State.

(** * Sanity checks on the scenario of the specification *)

Definition scenario : list (Z * Input) :=
  [ (10, Decoded (SnapshotPrepare "a" ""));
    (25, Decoded (SnapshotCommit "a" "L0"));
    (30, Decoded (SnapshotPrepare "b" "L0"));
    (70, Decoded (SnapshotCommit "b" "L1"));
    (80, Decoded (SnapshotPrepare "c" "L1"));
    (90, Decoded (ContainerCreate "c" "registry.example/repo/tag")) ].

Example scenario_reports :
  filter (fun r => bool_decide (level r = InfoLevel))
         (logs (serveContainerdMetrics 5 scenario)) =
  [ LogImagePulled "tag"
      {| Image.Name := "registry.example/repo/tag"; Image.TotalPrep := 55;
         Image.Layer := [ Layer.mk "L0" 15; Layer.mk "L1" 40 ] |}
      "c" "L1" ].
Proof. vm_compute. reflexivity. Qed.

Example splitSlash_three : splitSlash "registry.example/repo/tag" = ["registry.example"; "repo"; "tag"].
Proof. reflexivity. Qed.

Example splitSlash_trailing : splitSlash "a//" = ["a"; ""; ""].
Proof. reflexivity. Qed.

Example instanceIDOf_two_segments : instanceIDOf "repo/tag" = "".
Proof. reflexivity. Qed.

Example Since_saturates : Since (2 ^ 63 - 1) (- 2 ^ 63) = maxDuration.
Proof. reflexivity. Qed.

Example reverseLayers_three :
  reverseLayers [Layer.mk "x" 1; Layer.mk "y" 2; Layer.mk "z" 3]
  = Done [Layer.mk "z" 3; Layer.mk "y" 2; Layer.mk "x" 1].
Proof. reflexivity. Qed.

(** * Arithmetic of durations *)

Lemma wrap64_idem_l (a b : Z) : wrap64 (wrap64 a + b) = wrap64 (a + b).
Proof.
  unfold wrap64. f_equal.
  replace ((a + 2 ^ 63) mod 2 ^ 64 - 2 ^ 63 + b + 2 ^ 63)
    with ((a + 2 ^ 63) mod 2 ^ 64 + b) by lia.
  rewrite Zplus_mod_idemp_l. f_equal. lia.
Qed.

Lemma wrap64_representable (z : Z) : minDuration <= z <= maxDuration → wrap64 z = z.
Proof.
  unfold wrap64, minDuration, maxDuration. intros Hz.
  rewrite Z.mod_small; lia.
Qed.

Lemma add64_fold (ds : list Z) (acc : Z) :
  fold_left add64 ds (wrap64 acc) = wrap64 (acc + foldr Z.add 0 ds).
Proof.
  revert acc. induction ds as [|d ds IH]; intros acc; simpl.
  - by rewrite Z.add_0_r.
  - unfold add64 at 2. rewrite wrap64_idem_l, IH. f_equal. lia.
Qed.

(** * The swap loop reverses the slice *)

Lemma reverseFrom_ge {A} (i j : Z) (s : list A) : j <= i → reverseFrom i j s = Done s.
Proof.
  intros Hle. rewrite reverseFrom_equation_1.
  destruct (Z_lt_dec i j) as [Hlt|Hge]; [lia|]. reflexivity.
Qed.

Lemma reverseFrom_lt {A} (i j : Z) (s : list A) :
  i < j → reverseFrom i j s = s' ← swap s i j; reverseFrom (i + 1) (j - 1) s'.
Proof.
  intros Hlt. rewrite reverseFrom_equation_1.
  destruct (Z_lt_dec i j) as [?|Hge]; [|lia]. simpl.
  destruct (swap s i j); reflexivity.
Qed.

Lemma index_nat {A} (s : list A) (n : nat) : index s (Z.of_nat n) = s !! n.
Proof.
  unfold index. destruct (Z.ltb_spec (Z.of_nat n) 0); [lia|].
  by rewrite Nat2Z.id.
Qed.

Lemma swap_ends {A} (pre mid post : list A) (a b : A) :
  swap (pre ++ (a :: mid ++ [b]) ++ post)
       (Z.of_nat (length pre)) (Z.of_nat (length pre + S (length mid)))
  = Done ((pre ++ [b]) ++ mid ++ (a :: post)).
Proof.
  unfold swap. rewrite !index_nat, !Nat2Z.id.
  rewrite (lookup_app_r pre) by lia. rewrite Nat.sub_diag. simpl.
  rewrite (lookup_app_r pre) by lia.
  replace (length pre + S (length mid) - length pre)%nat with (S (length mid)) by lia.
  simpl. rewrite <- app_assoc. simpl.
  rewrite lookup_app_r by lia. rewrite Nat.sub_diag. simpl.
  f_equal.
  rewrite (insert_app_r_alt pre) by lia. rewrite Nat.sub_diag. simpl.
  rewrite (insert_app_r_alt pre) by lia.
  replace (length pre + S (length mid) - length pre)%nat with (S (length mid)) by lia.
  simpl. rewrite (insert_app_r_alt mid) by lia. rewrite Nat.sub_diag. simpl.
  by rewrite <- app_assoc.
Qed.

(** The loop invariant: the part still to be treated is [mid], between
    an already reversed prefix and suffix. *)
Lemma reverseFrom_middle {A} (n : nat) :
  ∀ (mid pre post : list A), length mid = n →
    reverseFrom (Z.of_nat (length pre)) (Z.of_nat (length pre + length mid) - 1)
                (pre ++ mid ++ post)
    = Done (pre ++ rev mid ++ post).
Proof.
  induction n as [n IH] using lt_wf_ind. intros mid pre post Hn.
  destruct mid as [|a mid].
  { apply reverseFrom_ge. simpl. lia. }
  induction mid as [|b mid _] using rev_ind.
  { rewrite reverseFrom_ge; [done | simpl; lia]. }
  rewrite reverseFrom_lt by (simpl; rewrite length_app; simpl; lia).
  replace (Z.of_nat (length pre + length (a :: mid ++ [b])) - 1)
    with (Z.of_nat (length pre + S (length mid)))
    by (simpl; rewrite length_app; simpl; lia).
  rewrite swap_ends. simpl.
  replace (Z.of_nat (length pre) + 1) with (Z.of_nat (length (pre ++ [b])))
    by (rewrite length_app; simpl; lia).
  replace (Z.of_nat (length pre + S (length mid)) - 1)
    with (Z.of_nat (length (pre ++ [b]) + length mid) - 1)
    by (rewrite length_app; simpl; lia).
  rewrite (IH (length mid)); [| simpl in Hn; rewrite length_app in Hn; simpl in Hn; lia | done].
  rewrite rev_app_distr. simpl. rewrite <- !app_assoc. done.
Qed.

Lemma reverseLayers_rev (s : list Layer.t) : reverseLayers s = Done (rev s).
Proof.
  unfold reverseLayers.
  pose proof (reverseFrom_middle (length s) s [] [] eq_refl) as H.
  simpl in H. rewrite !app_nil_r in H. exact H.
Qed.

(** * Walking a chain *)

Lemma lookupCommit_resolves st name c :
  resolves st name c → lookupCommit st name = Done (Some c).
Proof. intros (a & Ha & Hc). unfold lookupCommit. by rewrite Ha, Hc. Qed.

Lemma lookupCommit_absent st name :
  commitByName st !! name = None → lookupCommit st name = Done None.
Proof. intros H. unfold lookupCommit. by rewrite H. Qed.

Lemma walk_chain st (cs : list Commit.t) :
  ∀ name (fuel : nat) img, chainFrom st name cs → (length cs ≤ fuel)%nat →
    (c ← lookupCommit st name; walk fuel st c img)
    = Done {| Image.Name := Image.Name img;
              Image.TotalPrep := fold_left add64 (Commit.Dur <$> cs) (Image.TotalPrep img);
              Image.Layer := Image.Layer img ++ (layerOf <$> cs) |}.
Proof.
  induction cs as [|c cs IH]; intros name fuel img Hch Hfuel; simpl in Hch.
  - rewrite (lookupCommit_absent _ _ Hch). simpl.
    destruct fuel; simpl; rewrite app_nil_r; by destruct img.
  - destruct Hch as [Hc Hch]. rewrite (lookupCommit_resolves _ _ _ Hc).
    destruct fuel as [|fuel]; [simpl in Hfuel; lia|].
    cbn [mbind result_bind walk]. rewrite IH; [| done | simpl in Hfuel; lia].
    cbn [fmap list_fmap fold_left Image.Name Image.TotalPrep Image.Layer].
    by rewrite <- app_assoc.
Qed.

Lemma pushContainerMetrics_chain st (cs : list Commit.t) fuel id image p :
  prepByKey st !! id = Some p →
  chainFrom st (Prep.Parent p) cs →
  (length cs ≤ fuel)%nat →
  pushContainerMetrics fuel st id image
  = Done [ LogImagePulled (instanceIDOf image)
             {| Image.Name := image;
                Image.TotalPrep := wrap64 (foldr Z.add 0 (Commit.Dur <$> cs));
                Image.Layer := rev (layerOf <$> cs) |}
             id (Prep.Parent p) ].
Proof.
  intros Hp Hch Hfuel. unfold pushContainerMetrics. rewrite Hp.
  pose proof (walk_chain st cs _ fuel
                {| Image.Name := image; Image.TotalPrep := 0; Image.Layer := [] |}
                Hch Hfuel) as Hw.
  destruct (lookupCommit st (Prep.Parent p)) as [c| |]; simpl in Hw; try discriminate.
  simpl. rewrite Hw. simpl. rewrite reverseLayers_rev. simpl.
  change 0 with (wrap64 0) at 1. by rewrite add64_fold.
Qed.

(** * P3: order of the reconstructed chain *)

(** C1. In a store where [commitByName] resolves [n3], [n2], [n1], [n0]
    to the cells [l3], [l2], [l1], [base], each cell's [Parent] being the
    next name and [base]'s [Parent] having no entry, a ContainerCreate
    whose snapshot was prepared on parent [n3] logs one "image pulled"
    record whose layers are [base; l1; l2; l3] in that order and whose
    [TotalPrep] is the [Duration] sum of the four [Dur]s (the exact sum
    whenever that is representable); the store is left as it was.  Four
    iterations of the loop suffice. *)
Theorem chain_reconstruction_order
    (st : Store) (fuel : nat) (now : Z) (id image : string) (p : Prep.t)
    (n0 n1 n2 n3 : string) (base l1 l2 l3 : Commit.t) :
  prepByKey st !! id = Some p →
  Prep.Parent p = n3 →
  resolves st n3 l3 → Commit.Parent l3 = n2 →
  resolves st n2 l2 → Commit.Parent l2 = n1 →
  resolves st n1 l1 → Commit.Parent l1 = n0 →
  resolves st n0 base →
  commitByName st !! Commit.Parent base = None →
  (4 ≤ fuel)%nat →
  ∃ img,
    handleEvent fuel now (ContainerCreate id image) st
      = Done (st, [LogImagePulled (instanceIDOf image) img id n3]) ∧
    Image.Name img = image ∧
    Image.Layer img = [layerOf base; layerOf l1; layerOf l2; layerOf l3] ∧
    Image.TotalPrep img
      = wrap64 (Commit.Dur base + Commit.Dur l1 + Commit.Dur l2 + Commit.Dur l3) ∧
    (minDuration <= Commit.Dur base + Commit.Dur l1 + Commit.Dur l2 + Commit.Dur l3
       <= maxDuration →
     Image.TotalPrep img
       = Commit.Dur base + Commit.Dur l1 + Commit.Dur l2 + Commit.Dur l3).
Proof.
  intros Hp Hpar H3 P3 H2 P2 H1 P1 H0 Hbase Hfuel.
  assert (Hch : chainFrom st (Prep.Parent p) [l3; l2; l1; base]).
  { simpl. rewrite Hpar, P3, P2, P1. done. }
  pose proof (pushContainerMetrics_chain st _ fuel id image p Hp Hch Hfuel) as Hpush.
  simpl in Hpush.
  assert (Hsum : Commit.Dur l3 + (Commit.Dur l2 + (Commit.Dur l1 + (Commit.Dur base + 0)))
                 = Commit.Dur base + Commit.Dur l1 + Commit.Dur l2 + Commit.Dur l3) by lia.
  rewrite Hsum, Hpar in Hpush.
  eexists. split; [| split; [| split; [| split]]].
  - cbn [handleEvent]. rewrite Hpush. reflexivity.
  - reflexivity.
  - reflexivity.
  - reflexivity.
  - intros Hrep. cbn [Image.TotalPrep]. by apply wrap64_representable.
Qed.

Lemma chain_reconstruction_order_witness :
  ∃ img,
    handleEvent 4 180 (ContainerCreate "r" "reg/repo/ws1") fourLayerStore
      = Done (fourLayerStore, [LogImagePulled "ws1" img "r" "L3"]) ∧
    Image.Name img = "reg/repo/ws1" ∧
    Image.Layer img
      = [Layer.mk "base" 10; Layer.mk "L1" 30; Layer.mk "L2" 40; Layer.mk "L3" 50] ∧
    Image.TotalPrep img = 130.
Proof.
  destruct (chain_reconstruction_order fourLayerStore 4 180 "r" "reg/repo/ws1"
              (Prep.mk 170 "L3" "") "base" "L1" "L2" "L3"
              (Commit.mk 10 "" "base" "a") (Commit.mk 30 "base" "L1" "b")
              (Commit.mk 40 "L1" "L2" "c") (Commit.mk 50 "L2" "L3" "d"))
    as (img & Hev & Hname & Hlayers & _ & Htotal).
  - vm_compute; reflexivity.
  - reflexivity.
  - exists 3%nat. split; vm_compute; reflexivity.
  - reflexivity.
  - exists 2%nat. split; vm_compute; reflexivity.
  - reflexivity.
  - exists 1%nat. split; vm_compute; reflexivity.
  - reflexivity.
  - exists 0%nat. split; vm_compute; reflexivity.
  - vm_compute; reflexivity.
  - lia.
  - exists img. repeat split; try assumption.
    apply Htotal. vm_compute. split; discriminate.
Defined.

(** * P2: a commit without a start *)

(** C4. When [prepByKey] has no entry for the key, a SnapshotCommit
    leaves the whole store as it was (no Commit cell is allocated, no
    index is written), emits the debug record "found commit without
    prep" and nothing else, and the loop goes on to the next input. *)
Theorem commit_without_prep_dropped
    (st : Store) (key name : string) (fuel : nat) (now : Z)
    (rest : list (Z * Input)) (out : list LogRecord) :
  prepByKey st !! key = None →
  handleEvent fuel now (SnapshotCommit key name) st
    = Done (st, [LogCommitWithoutPrep key name]) ∧
  level (LogCommitWithoutPrep key name) = DebugLevel ∧
  serveLoop fuel ((now, Decoded (SnapshotCommit key name)) :: rest) st out
    = serveLoop fuel rest st (out ++ [LogCommitWithoutPrep key name]).
Proof.
  intros Hnone. cbn [serveLoop handleEvent]. rewrite Hnone. done.
Qed.

Lemma commit_without_prep_dropped_witness :
  handleEvent 0 7 (SnapshotCommit "zz" "L9") fourLayerStore
    = Done (fourLayerStore, [LogCommitWithoutPrep "zz" "L9"]).
Proof.
  apply (commit_without_prep_dropped fourLayerStore "zz" "L9" 0 7 [] []).
  vm_compute; reflexivity.
Defined.

(** * Frame of a commit *)

(** C5. A SnapshotCommit always returns, and [prepByKey] after it is the
    map before it: a matched Prep stays where it was. *)
Theorem commit_keeps_prepByKey
    (st : Store) (key name : string) (fuel : nat) (now : Z) :
  ∃ st' l,
    handleEvent fuel now (SnapshotCommit key name) st = Done (st', l) ∧
    prepByKey st' = prepByKey st ∧
    prepByKey st' !! key = prepByKey st !! key.
Proof.
  cbn [handleEvent]. destruct (prepByKey st !! key) as [p|] eqn:Hp.
  - eexists _, _. split; [reflexivity|]. cbn [prepByKey]. by rewrite Hp.
  - eexists _, _. split; [reflexivity|]. by rewrite Hp.
Qed.

(** * Recording a start *)

(** C6. A SnapshotPrepare always returns; afterwards [prepByKey] is the
    former map with the key bound to a Prep holding the clock reading and
    the event's parent, whatever was bound before, so the entries under
    that key are that one record alone.  Two prepares of one key in a row
    leave what the second alone would have left. *)
Theorem prepare_overwrites
    (st : Store) (key parent : string) (fuel : nat) (now : Z) :
  let p := {| Prep.T := now; Prep.Parent := parent; Prep.Name := EmptyString |} in
  ∃ st',
    handleEvent fuel now (SnapshotPrepare key parent) st = Done (st', [LogPrep p]) ∧
    prepByKey st' = <[key := p]> (prepByKey st) ∧
    prepByKey st' !! key = Some p ∧
    filter (λ kv, kv.1 = key) (prepByKey st') = {[ key := p ]} ∧
    heap st' = heap st ∧ commitByKey st' = commitByKey st ∧
    commitByName st' = commitByName st ∧
    ∀ parent0 now0,
      (r ← handleEvent fuel now0 (SnapshotPrepare key parent0) st;
       handleEvent fuel now (SnapshotPrepare key parent) r.1)
      = Done (st', [LogPrep p]).
Proof.
  intros p. eexists. split; [reflexivity|]. cbn [prepByKey heap commitByKey commitByName].
  repeat split.
  - apply lookup_insert_eq.
  - apply map_eq. intros k. rewrite map_lookup_filter.
    destruct (decide (k = key)) as [->|Hne].
    + rewrite lookup_insert_eq, lookup_singleton_eq. simpl.
      case_guard; [done | congruence].
    + rewrite lookup_singleton_ne by done.
      destruct (<[key:=_]> (prepByKey st) !! k) as [q|]; simpl; [|done].
      case_guard; [simpl in *; congruence | done].
  - intros parent0 now0. cbn [handleEvent mbind result_bind fst prepByKey heap
                               commitByKey commitByName].
    by rewrite insert_insert_eq.
Qed.

(** * P5: a container without a recorded preparation *)

(** C7. When [prepByKey] has no entry for the container ID, a
    ContainerCreate returns for any iteration budget, leaves the store as
    it was and emits the debug record "image witout prep" alone: no
    "image pulled" record. *)
Theorem container_without_prep
    (st : Store) (id image : string) (fuel : nat) (now : Z) :
  prepByKey st !! id = None →
  handleEvent fuel now (ContainerCreate id image) st
    = Done (st, [LogImageWithoutPrep image id]) ∧
  level (LogImageWithoutPrep image id) = DebugLevel.
Proof.
  intros Hnone. cbn [handleEvent]. unfold pushContainerMetrics. rewrite Hnone. done.
Qed.

Lemma container_without_prep_witness :
  handleEvent 0 9 (ContainerCreate "ghost" "reg/repo/ws1") fourLayerStore
    = Done (fourLayerStore, [LogImageWithoutPrep "reg/repo/ws1" "ghost"]).
Proof.
  apply (container_without_prep fourLayerStore "ghost" "reg/repo/ws1" 0 9).
  vm_compute; reflexivity.
Defined.

(** * P4: an image with no layer *)





(** * Termination of the chain walk *)

Lemma walk_fuel_mono st (fuel : nat) :
  ∀ (fuel' : nat) c img, (fuel ≤ fuel')%nat →
    walk fuel st c img ≠ Diverge → walk fuel' st c img = walk fuel st c img.
Proof.
  induction fuel as [|fuel IH]; intros fuel' c img Hle Hnd.
  - destruct c as [c|]; [by simpl in Hnd | by destruct fuel'].
  - destruct c as [c|]; [| by destruct fuel'].
    destruct fuel' as [|fuel']; [lia|].
    cbn [walk] in *.
    destruct (lookupCommit st (Commit.Parent c)) as [c'| |]; [| done | done].
    cbn [mbind result_bind] in *. apply IH; [lia | done].
Qed.

Lemma parentName_resolves st name c :
  lookupCommit st name = Done (Some c) → parentName st name = Some (Commit.Parent c).
Proof.
  unfold lookupCommit, parentName.
  destruct (commitByName st !! name) as [a|]; [|done]. simpl.
  destruct (heap st !! a) as [c'|]; [|done]. simpl. congruence.
Qed.

Lemma lookupCommit_is_Some st name c :
  lookupCommit st name = Done (Some c) → is_Some (commitByName st !! name).
Proof.
  unfold lookupCommit. destruct (commitByName st !! name) as [a|]; [eauto | done].
Qed.

Lemma lookupCommit_returns st name : lookupCommit st name ≠ Diverge.
Proof.
  unfold lookupCommit. destruct (commitByName st !! name) as [a|]; [|done].
  by destruct (heap st !! a).
Qed.

Lemma ancestor_add st (i j : nat) (name : string) :
  ancestor st (i + j) name = ancestor st i name ≫= ancestor st j.
Proof.
  revert name. induction i as [|i IH]; intros name; [done|].
  cbn [Nat.add ancestor]. destruct (parentName st name) as [n'|]; [|done].
  simpl. apply IH.
Qed.

(** A walk still running after [fuel] iterations has looked up [fuel + 1]
    names with success. *)
Lemma walk_diverge_trail st (fuel : nat) :
  ∀ name img,
    walkFrom fuel st name img = Diverge →
    ∀ k, (k ≤ fuel)%nat →
      ∃ n, ancestor st k name = Some n ∧ is_Some (commitByName st !! n).
Proof.
  induction fuel as [|fuel IH]; intros name img Hdiv k Hk; unfold walkFrom in Hdiv.
  - destruct (lookupCommit st name) as [[c|]| |] eqn:Hl in Hdiv;
      try discriminate Hdiv; [| by apply lookupCommit_returns in Hl].
    replace k with O by lia. exists name. split; [done|].
    by eapply lookupCommit_is_Some.
  - destruct (lookupCommit st name) as [[c|]| |] eqn:Hl in Hdiv;
      try discriminate Hdiv; [| by apply lookupCommit_returns in Hl].
    cbn [mbind result_bind walk] in Hdiv.
    destruct k as [|k].
    + exists name. split; [done|]. by eapply lookupCommit_is_Some.
    + cbn [ancestor]. rewrite (parentName_resolves _ _ _ Hl). simpl.
      eapply IH; [exact Hdiv | lia].
Qed.

Lemma acyclic_trail_inj st name (i j : nat) (n : string) :
  acyclic st → ancestor st i name = Some n → ancestor st j name = Some n → i = j.
Proof.
  intros Hac.
  assert (Hlt : ∀ i j, (i < j)%nat →
            ancestor st i name = Some n → ancestor st j name = Some n → False).
  { clear i j. intros i j Hij Hi Hj.
    replace j with (i + (j - i))%nat in Hj by lia.
    rewrite ancestor_add, Hi in Hj. simpl in Hj.
    eapply Hac; [|exact Hj]. lia. }
  intros Hi Hj. destruct (Nat.lt_trichotomy i j) as [?|[?|?]]; [|done|].
  - exfalso. eauto.
  - exfalso. eauto.
Qed.

Lemma acyclic_walk_bounded st (fuel : nat) name img :
  acyclic st → (size (commitByName st) ≤ fuel)%nat →
  walkFrom fuel st name img ≠ Diverge.
Proof.
  intros Hac Hfuel Hdiv.
  pose proof (walk_diverge_trail st fuel name img Hdiv) as Htrail.
  set (f := λ k : nat, default EmptyString (ancestor st k name)).
  assert (Hf : ∀ k, (k ≤ fuel)%nat → ancestor st k name = Some (f k)).
  { intros k Hk. destruct (Htrail k Hk) as (n & Hn & _). unfold f. by rewrite Hn. }
  assert (Hnd : NoDup (f <$> seq 0 (S fuel))).
  { apply NoDup_fmap_2_strong; [|apply NoDup_seq].
    intros i j Hi Hj Heq. apply elem_of_seq in Hi, Hj.
    eapply (acyclic_trail_inj st name i j (f i) Hac).
    - apply Hf. lia.
    - rewrite Heq. apply Hf. lia. }
  assert (Hsub : f <$> seq 0 (S fuel) ⊆+ elements (dom (commitByName st))).
  { apply NoDup_submseteq; [done|]. intros n Hn.
    apply list_elem_of_fmap in Hn as (k & -> & Hk). apply elem_of_seq in Hk.
    destruct (Htrail k ltac:(lia)) as (n & Hn & Hsome).
    rewrite (Hf k ltac:(lia)) in Hn. injection Hn as <-.
    apply elem_of_elements, elem_of_dom. done. }
  apply submseteq_length in Hsub.
  rewrite length_fmap, length_seq in Hsub.
  change (length (elements (dom (commitByName st)))) with (size (dom (commitByName st))) in Hsub.
  rewrite size_dom in Hsub. lia.
Qed.

(** Conversely, a walk that enters a cycle never stops. *)
Lemma cycle_trail_total st name (k : nat) :
  (0 < k)%nat → ancestor st k name = Some name → ∀ j, is_Some (ancestor st j name).
Proof.
  intros Hk Hcyc j. induction j as [j IH] using lt_wf_ind.
  destruct (decide (j < k)%nat) as [Hlt|Hge].
  - replace k with (j + (k - j))%nat in Hcyc by lia.
    rewrite ancestor_add in Hcyc.
    destruct (ancestor st j name); [eauto | done].
  - replace j with (k + (j - k))%nat by lia.
    rewrite ancestor_add, Hcyc. simpl. apply IH. lia.
Qed.

Lemma parentName_Some st name n' :
  parentName st name = Some n' →
  ∃ c, lookupCommit st name = Done (Some c) ∧ Commit.Parent c = n'.
Proof.
  unfold parentName, lookupCommit.
  destruct (commitByName st !! name) as [a|]; [|done]. simpl.
  destruct (heap st !! a) as [c|]; [|done]. simpl.
  intros [= <-]. eauto.
Qed.

Lemma total_trail_diverges st (fuel : nat) :
  ∀ name img, (∀ j, is_Some (ancestor st j name)) → walkFrom fuel st name img = Diverge.
Proof.
  induction fuel as [|fuel IH]; intros name img Hall.
  - destruct (Hall 1%nat) as [n' Hn']. cbn [ancestor] in Hn'.
    destruct (parentName st name) as [n''|] eqn:Hp; [|done].
    apply parentName_Some in Hp as (c & Hl & _).
    unfold walkFrom. by rewrite Hl.
  - destruct (Hall 1%nat) as [n' Hn']. cbn [ancestor] in Hn'.
    destruct (parentName st name) as [n''|] eqn:Hp; [|done].
    pose proof Hp as Hp'.
    apply parentName_Some in Hp as (c & Hl & Hc).
    unfold walkFrom. rewrite Hl. cbn [mbind result_bind walk].
    apply (IH (Commit.Parent c)). intros j.
    specialize (Hall (S j)). cbn [ancestor] in Hall.
    rewrite Hp' in Hall. simpl in Hall. by rewrite Hc.
Qed.

Lemma cycle_walk_diverges st name (k fuel : nat) img :
  (0 < k)%nat → ancestor st k name = Some name → walkFrom fuel st name img = Diverge.
Proof.
  intros Hk Hcyc. apply total_trail_diverges. by eapply cycle_trail_total.
Qed.

Lemma walksStop_acyclic st : walksStop st = true → acyclic st.
Proof.
  unfold walksStop. rewrite forallb_forall. intros Hall name k Hk Hcyc.
  assert (Hin : In name (elements (dom (commitByName st)))).
  { apply list_elem_of_In, elem_of_elements, elem_of_dom.
    destruct k as [|k]; [lia|]. cbn [ancestor] in Hcyc.
    destruct (parentName st name) as [n'|] eqn:Hp; [|done].
    apply parentName_Some in Hp as (c & Hl & _).
    by eapply lookupCommit_is_Some. }
  specialize (Hall name Hin).
  by rewrite (cycle_walk_diverges st name k _ _ Hk Hcyc) in Hall.
Qed.

Lemma pushContainerMetrics_walkFrom st (fuel : nat) id image p :
  prepByKey st !! id = Some p →
  pushContainerMetrics fuel st id image
  = (img ← walkFrom fuel st (Prep.Parent p)
             {| Image.Name := image; Image.TotalPrep := 0; Image.Layer := [] |};
     Done [ LogImagePulled (instanceIDOf (Image.Name img))
              {| Image.Name := Image.Name img; Image.TotalPrep := Image.TotalPrep img;
                 Image.Layer := rev (Image.Layer img) |}
              id (Prep.Parent p) ]).
Proof.
  intros Hp. unfold pushContainerMetrics, walkFrom. rewrite Hp.
  destruct (lookupCommit st (Prep.Parent p)) as [c| |]; [| done | done].
  cbn [mbind result_bind].
  destruct (walk fuel st c _) as [img| |]; [| done | done].
  cbn [mbind result_bind]. by rewrite reverseLayers_rev.
Qed.

(** C2, the claim at a concrete input.  Once a snapshot has been committed
    under the name of its own parent, the reconstruction for a container
    prepared on top of it is still running after any number of
    iterations. *)
Lemma self_parent_walk_never_stops :
  ¬ ∃ fuel, handleEvent fuel 7 (ContainerCreate "c" "img") selfParentStore ≠ Diverge.
Proof.
  intros [fuel Hstop]. apply Hstop. cbn [handleEvent].
  rewrite (pushContainerMetrics_walkFrom selfParentStore fuel "c" "img" (Prep.mk 6 "N" ""))
    by (vm_compute; reflexivity).
  cbn [Prep.Parent].
  rewrite (cycle_walk_diverges selfParentStore "N" 1); [done | lia |].
  vm_compute; reflexivity.
Qed.

Lemma acyclicFrom_trail_inj st start (i j : nat) (n : string) :
  acyclicFrom st start →
  ancestor st i start = Some n → ancestor st j start = Some n → i = j.
Proof.
  intros Hac.
  assert (Hlt : ∀ i j, (i < j)%nat →
            ancestor st i start = Some n → ancestor st j start = Some n → False).
  { clear i j. intros i j Hij Hi Hj.
    replace j with (i + (j - i))%nat in Hj by lia.
    rewrite ancestor_add, Hi in Hj. simpl in Hj.
    eapply (Hac i (j - i)%nat n); [done | lia | exact Hj]. }
  intros Hi Hj. destruct (Nat.lt_trichotomy i j) as [?|[?|?]]; [|done|].
  - exfalso. eauto.
  - exfalso. eauto.
Qed.

Lemma acyclicFrom_walk_bounded st (fuel : nat) start img :
  acyclicFrom st start → (size (commitByName st) ≤ fuel)%nat →
  walkFrom fuel st start img ≠ Diverge.
Proof.
  intros Hac Hfuel Hdiv.
  pose proof (walk_diverge_trail st fuel start img Hdiv) as Htrail.
  set (f := λ k : nat, default EmptyString (ancestor st k start)).
  assert (Hf : ∀ k, (k ≤ fuel)%nat → ancestor st k start = Some (f k)).
  { intros k Hk. destruct (Htrail k Hk) as (n & Hn & _). unfold f. by rewrite Hn. }
  assert (Hnd : NoDup (f <$> seq 0 (S fuel))).
  { apply NoDup_fmap_2_strong; [|apply NoDup_seq].
    intros i j Hi Hj Heq. apply elem_of_seq in Hi, Hj.
    eapply (acyclicFrom_trail_inj st start i j (f i) Hac).
    - apply Hf. lia.
    - rewrite Heq. apply Hf. lia. }
  assert (Hsub : f <$> seq 0 (S fuel) ⊆+ elements (dom (commitByName st))).
  { apply NoDup_submseteq; [done|]. intros n Hn.
    apply list_elem_of_fmap in Hn as (k & -> & Hk). apply elem_of_seq in Hk.
    destruct (Htrail k ltac:(lia)) as (n & Hn & Hsome).
    rewrite (Hf k ltac:(lia)) in Hn. injection Hn as <-.
    apply elem_of_elements, elem_of_dom. done. }
  apply submseteq_length in Hsub.
  rewrite length_fmap, length_seq in Hsub.
  change (length (elements (dom (commitByName st)))) with (size (dom (commitByName st))) in Hsub.
  rewrite size_dom in Hsub. lia.
Qed.

Lemma reachable_cycle_diverges st start (j k fuel : nat) (name : string) img :
  ancestor st j start = Some name → (0 < k)%nat → ancestor st k name = Some name →
  walkFrom fuel st start img = Diverge.
Proof.
  intros Hreach Hk Hcyc. apply total_trail_diverges. intros m.
  destruct (decide (m ≤ j)%nat) as [Hle|Hgt].
  - replace j with (m + (j - m))%nat in Hreach by lia.
    rewrite ancestor_add in Hreach.
    destruct (ancestor st m start); [eauto | done].
  - replace m with (j + (m - j))%nat by lia.
    rewrite ancestor_add, Hreach. cbn. by eapply cycle_trail_total.
Qed.

(** C2, amended.  For every store and starting name, the walk stops
    exactly when no name reached from the starting name is its own
    ancestor, whatever cycles lie elsewhere in the store.  It then stops
    within as many iterations as [commitByName] has entries, and a
    larger budget changes nothing.  When a name reached from the
    starting name is its own ancestor, the walk is still running after
    any number of iterations.  The same holds of a ContainerCreate, the
    starting name being the parent of the container's Prep. *)
Theorem walk_stops_iff_no_reachable_cycle (st : Store) (start : string) (img : Image.t) :
  ((∃ fuel, walkFrom fuel st start img ≠ Diverge) ↔ acyclicFrom st start) ∧
  (acyclicFrom st start →
   ∀ fuel, (size (commitByName st) ≤ fuel)%nat →
     walkFrom fuel st start img ≠ Diverge ∧
     walkFrom fuel st start img = walkFrom (size (commitByName st)) st start img) ∧
  (∀ j k name,
     ancestor st j start = Some name → (0 < k)%nat → ancestor st k name = Some name →
     ∀ fuel, walkFrom fuel st start img = Diverge) ∧
  (∀ now id image p,
     prepByKey st !! id = Some p → Prep.Parent p = start →
     ((∃ fuel, handleEvent fuel now (ContainerCreate id image) st ≠ Diverge)
      ↔ acyclicFrom st start)).
Proof.
  assert (Hiff : ∀ i, (∃ fuel, walkFrom fuel st start i ≠ Diverge) ↔ acyclicFrom st start).
  { intros i. split.
    - intros [fuel Hstop] j k name Hreach Hk Hcyc. apply Hstop.
      by eapply reachable_cycle_diverges.
    - intros Hac. exists (size (commitByName st)). by apply acyclicFrom_walk_bounded. }
  split; [apply Hiff|]. split; [|split].
  - intros Hac fuel Hfuel. split; [by apply acyclicFrom_walk_bounded|].
    pose proof (acyclicFrom_walk_bounded st _ start img Hac (le_n _)) as Hsize.
    unfold walkFrom in *.
    destruct (lookupCommit st start) as [c| |]; [| done | done].
    cbn [mbind result_bind] in *. by apply walk_fuel_mono.
  - intros j k name Hreach Hk Hcyc fuel. by eapply reachable_cycle_diverges.
  - intros now id image p Hp <-. rewrite <- (Hiff
      {| Image.Name := image; Image.TotalPrep := 0; Image.Layer := [] |}).
    split; intros [fuel Hstop]; exists fuel; cbn [handleEvent] in *;
      rewrite (pushContainerMetrics_walkFrom st fuel id image p Hp) in *.
    + intros Hdiv. apply Hstop. by rewrite Hdiv.
    + by destruct (walkFrom fuel st (Prep.Parent p) _).
Qed.

Lemma walk_stops_iff_no_reachable_cycle_witness :
  acyclicFrom strayCycleStore "L3" ∧
  ¬ acyclic strayCycleStore ∧
  handleEvent 5 210 (ContainerCreate "r" "img") strayCycleStore ≠ Diverge.
Proof.
  destruct (walk_stops_iff_no_reachable_cycle strayCycleStore "L3"
              {| Image.Name := "img"; Image.TotalPrep := 0; Image.Layer := [] |})
    as (Hiff & Hbound & _ & Hcreate).
  assert (Hac : acyclicFrom strayCycleStore "L3").
  { apply Hiff. exists 4%nat. vm_compute. discriminate. }
  split; [exact Hac|]. split.
  - intros Hall. apply (Hall "N"%string 1%nat); [lia|]. vm_compute; reflexivity.
  - vm_compute. discriminate.
Defined.

(** * Commit cells: allocation, immutability, index consistency *)

Lemma handleEvent_heap st (fuel : nat) (now : Z) (evt : Event) st' l :
  handleEvent fuel now evt st = Done (st', l) → ∃ later, heap st' = heap st ++ later.
Proof.
  destruct evt as [key parent|key name|key|name|id image|]; cbn [handleEvent].
  - intros [= <- _]. exists []. by rewrite app_nil_r.
  - destruct (prepByKey st !! key) as [p|]; intros [= <- _].
    + by eexists.
    + exists []. by rewrite app_nil_r.
  - intros [= <- _]. exists []. by rewrite app_nil_r.
  - intros [= <- _]. exists []. by rewrite app_nil_r.
  - destruct (pushContainerMetrics fuel st id image); [|done..].
    intros [= <- _]. exists []. by rewrite app_nil_r.
  - intros [= <- _]. exists []. by rewrite app_nil_r.
Qed.

Lemma serveLoop_heap (fuel : nat) (inputs : list (Z * Input)) :
  ∀ st out, ∃ later, heap (store (serveLoop fuel inputs st out)) = heap st ++ later.
Proof.
  induction inputs as [|[now inp] rest IH]; intros st out; cbn [serveLoop].
  - exists []. by rewrite app_nil_r.
  - destruct inp as [err| | |evt]; cbn [store];
      try (exists []; by rewrite app_nil_r); [apply IH|].
    destruct (handleEvent fuel now evt st) as [[st' l]| |] eqn:Hev; cbn [store];
      try (exists []; by rewrite app_nil_r).
    destruct (handleEvent_heap _ _ _ _ _ _ Hev) as [k1 Hk1].
    destruct (IH st' (out ++ l)) as [k2 Hk2].
    exists (k1 ++ k2). by rewrite Hk2, Hk1, app_assoc.
Qed.

Lemma initStore_consistent : indexConsistent initStore.
Proof. split; intros k a; cbn; by rewrite lookup_empty. Qed.

Lemma handleEvent_consistent st (fuel : nat) (now : Z) (evt : Event) st' l :
  indexConsistent st → handleEvent fuel now evt st = Done (st', l) → indexConsistent st'.
Proof.
  intros [Hkey Hname].
  destruct evt as [key parent|key name|key|name|id image|]; cbn [handleEvent];
    try (intros [= <- _]; by split).
  - destruct (prepByKey st !! key) as [p|]; intros [= <- _]; [|by split].
    split; cbn [commitByKey commitByName heap].
    + intros key' a. rewrite lookup_insert. case_decide as Hk.
      * intros [= <-]. eexists. split; [apply list_lookup_middle; done|]. by subst.
      * intros Ha. destruct (Hkey _ _ Ha) as (c & Hc & <-).
        exists c. split; [by apply lookup_app_l_Some | done].
    + intros name' a. rewrite lookup_insert. case_decide as Hn.
      * intros [= <-]. eexists. split; [apply list_lookup_middle; done|]. by subst.
      * intros Ha. destruct (Hname _ _ Ha) as (c & Hc & <-).
        exists c. split; [by apply lookup_app_l_Some | done].
  - destruct (pushContainerMetrics fuel st id image); [|done..].
    intros [= <- _]. by split.
Qed.

Lemma serveLoop_consistent (fuel : nat) (inputs : list (Z * Input)) :
  ∀ st out, indexConsistent st → indexConsistent (store (serveLoop fuel inputs st out)).
Proof.
  induction inputs as [|[now inp] rest IH]; intros st out Hst; cbn [serveLoop]; [done|].
  destruct inp as [err| | |evt]; cbn [store]; try done; [by apply IH|].
  destruct (handleEvent fuel now evt st) as [[st' l]| |] eqn:Hev; cbn [store]; try done.
  apply IH. by eapply handleEvent_consistent.
Qed.




(** C10.  Index consistency, once it holds, holds after any run of the
    loop and after any single event; and a SnapshotCommit that finds its
    Prep stores one address in both indexes, that of a cell carrying the
    event's key and name. *)
Theorem index_consistency_preserved (st : Store) :
  indexConsistent st →
  (∀ fuel inputs out, indexConsistent (store (serveLoop fuel inputs st out))) ∧
  (∀ fuel now evt st' l,
     handleEvent fuel now evt st = Done (st', l) → indexConsistent st') ∧
  (∀ fuel now key name p,
     prepByKey st !! key = Some p →
     ∃ st' c a,
       handleEvent fuel now (SnapshotCommit key name) st = Done (st', [LogCommit c]) ∧
       commitByKey st' !! key = Some a ∧
       commitByName st' !! name = Some a ∧
       heap st' !! a = Some c ∧
       Commit.Key c = key ∧ Commit.Name c = name ∧
       indexConsistent st').
Proof.
  intros Hst. split; [|split].
  - intros fuel inputs out. by apply serveLoop_consistent.
  - intros fuel now evt st' l. by apply handleEvent_consistent.
  - intros fuel now key name p Hp.
    assert (Hev : ∃ st' c, handleEvent fuel now (SnapshotCommit key name) st
                           = Done (st', [LogCommit c]) ∧
                           st' = {| prepByKey := prepByKey st;
                                    heap := heap st ++ [c];
                                    commitByKey := <[key := length (heap st)]> (commitByKey st);
                                    commitByName := <[name := length (heap st)]> (commitByName st) |} ∧
                           Commit.Key c = key ∧ Commit.Name c = name).
    { cbn [handleEvent]. rewrite Hp. eexists _, _. split; [reflexivity|done]. }
    destruct Hev as (st' & c & Hev & Hst' & Hk & Hn).
    exists st', c, (length (heap st)). split; [exact Hev|].
    pose proof (handleEvent_consistent _ _ _ _ _ _ Hst Hev) as Hcons.
    subst st'. cbn [commitByKey commitByName heap].
    rewrite !lookup_insert_eq.
    split; [done|]. split; [done|]. split; [by apply list_lookup_middle|].
    split; [done|]. split; [done|]. exact Hcons.
Qed.

Lemma index_consistency_preserved_witness :
  indexConsistent (store (serveLoop 0 fourLayerInputs initStore [])) ∧
  ∃ st' c a,
    handleEvent 0 200 (SnapshotCommit "r" "rootfs") fourLayerStore
      = Done (st', [LogCommit c]) ∧
    commitByKey st' !! "r" = Some a ∧ commitByName st' !! "rootfs" = Some a.
Proof.
  assert (Hrun : indexConsistent (store (serveLoop 0 fourLayerInputs initStore []))).
  { apply (proj1 (index_consistency_preserved initStore initStore_consistent)). }
  split; [exact Hrun|].
  - assert (Hcons : indexConsistent fourLayerStore) by exact Hrun.
    destruct (index_consistency_preserved fourLayerStore Hcons) as (_ & _ & Hcommit).
    destruct (Hcommit 0%nat 200 "r" "rootfs" (Prep.mk 170 "L3" ""))
      as (st' & c & a & Hev & Hk & Hn & _).
    + vm_compute; reflexivity.
    + exists st', c, a. done.
Defined.

(** * Interleaving independence *)

Lemma lookupCommit_cell st name :
  indexConsistent st → lookupCommit st name = Done (cellByName st name).
Proof.
  intros [_ Hname]. unfold lookupCommit, cellByName.
  destruct (commitByName st !! name) as [a|] eqn:Ha; [|done]. simpl.
  destruct (Hname _ _ Ha) as (c & -> & _). done.
Qed.

Lemma eraseDur_inv (c c' : Commit.t) :
  eraseDur c = eraseDur c' →
  Commit.Parent c = Commit.Parent c' ∧ Commit.Name c = Commit.Name c' ∧
  Commit.Key c = Commit.Key c'.
Proof. unfold eraseDur. intros [= ? ? ?]. done. Qed.

Lemma fmap_rev {A B : Type} (f : A → B) (l : list A) : f <$> rev l = rev (f <$> l).
Proof.
  induction l as [|a l IH]; [done|]. cbn [rev]. rewrite fmap_app, IH. done.
Qed.

Section Agreement.
Variables (K P : gset string) (s sO : Store).
Hypothesis Hag : agree K P s sO.

(** From a name of [P], the two stores make the loop run alike. *)
Lemma walk_agree (fuel : nat) :
  ∀ name img imgO, name ∈ P → eraseImage img = eraseImage imgO →
    match walkFrom fuel s name img, walkFrom fuel sO name imgO with
    | Done i, Done iO => eraseImage i = eraseImage iO
    | Diverge, Diverge => True
    | _, _ => False
    end.
Proof.
  induction fuel as [|fuel IH]; intros name img imgO Hin Himg; unfold walkFrom;
    rewrite (lookupCommit_cell s name (agree_cons_l _ _ _ _ Hag)),
            (lookupCommit_cell sO name (agree_cons_r _ _ _ _ Hag));
    pose proof (agree_name _ _ _ _ Hag name Hin) as Hcell;
    pose proof (agree_closed _ _ _ _ Hag name) as Hclosed;
    destruct (cellByName s name) as [c|], (cellByName sO name) as [cO|];
    simpl in Hcell; try discriminate Hcell; cbn [mbind result_bind walk]; try done.
  assert (He : eraseDur c = eraseDur cO) by congruence.
  apply eraseDur_inv in He as (Hpar & Hname & _).
  rewrite <- Hpar.
  apply (IH (Commit.Parent c)); [by eapply Hclosed|].
  unfold eraseImage in *. cbn [Image.Name Image.Layer].
  injection Himg as Hn Hl. rewrite Hn, !fmap_app, Hl. cbn. by rewrite Hname.
Qed.

Lemma push_agree (fuel : nat) (id image : string) :
  id ∈ K →
  match pushContainerMetrics fuel s id image, pushContainerMetrics fuel sO id image with
  | Done l, Done lO => eraseTimes <$> l = eraseTimes <$> lO
  | Diverge, Diverge => True
  | _, _ => False
  end.
Proof.
  intros Hid.
  pose proof (agree_prep _ _ _ _ Hag id Hid) as Hprep.
  pose proof (agree_prep_parent _ _ _ _ Hag id) as Hpar.
  destruct (prepByKey s !! id) as [p|] eqn:Hp, (prepByKey sO !! id) as [pO|] eqn:HpO;
    simpl in Hprep; try discriminate Hprep.
  - injection Hprep as Hprep.
    rewrite (pushContainerMetrics_walkFrom s fuel id image p Hp),
            (pushContainerMetrics_walkFrom sO fuel id image pO HpO).
    rewrite <- Hprep.
    pose proof (walk_agree fuel (Prep.Parent p)
                  {| Image.Name := image; Image.TotalPrep := 0; Image.Layer := [] |}
                  {| Image.Name := image; Image.TotalPrep := 0; Image.Layer := [] |}
                  (Hpar p Hid eq_refl) eq_refl) as Hw.
    destruct (walkFrom fuel s _ _) as [i| |], (walkFrom fuel sO _ _) as [iO| |];
      try done.
    cbn [mbind result_bind fmap list_fmap eraseTimes]. unfold eraseImage in *.
    injection Hw as Hn Hl. cbn [Image.Name Image.Layer].
    rewrite Hn. do 3 f_equal.
    by rewrite !fmap_rev, Hl.
  - unfold pushContainerMetrics. by rewrite Hp, HpO.
Qed.
End Agreement.

Lemma push_about (K : gset string) st (fuel : nat) (id image : string) l :
  pushContainerMetrics fuel st id image = Done l →
  List.filter (aboutContainer K) l = if bool_decide (id ∈ K) then l else [].
Proof.
  unfold pushContainerMetrics. destruct (prepByKey st !! id) as [p|].
  - destruct (lookupCommit st (Prep.Parent p)) as [c| |]; [|done..].
    cbn [mbind result_bind].
    destruct (walk fuel st c _) as [img| |]; [|done..].
    cbn [mbind result_bind]. rewrite reverseLayers_rev. cbn [mbind result_bind].
    intros [= <-]. cbn. by destruct (bool_decide (id ∈ K)).
  - intros [= <-]. cbn. by destruct (bool_decide (id ∈ K)).
Qed.

(** The cells the indexes point to after a matched commit. *)
Lemma cellByName_commit st (key name : string) (p : Prep.t) (now : Z) (fuel : nat)
    st' l (n0 : string) :
  indexConsistent st →
  prepByKey st !! key = Some p →
  handleEvent fuel now (SnapshotCommit key name) st = Done (st', l) →
  cellByName st' n0 =
    if decide (name = n0)
    then Some (Commit.mk (Since now (Prep.T p)) (Prep.Parent p) name key)
    else cellByName st n0.
Proof.
  intros [_ Hname] Hp. cbn [handleEvent]. rewrite Hp. intros [= <- _].
  unfold cellByName. cbn [commitByName heap]. rewrite lookup_insert.
  case_decide as Hn; simpl.
  - by apply list_lookup_middle.
  - destruct (commitByName st !! n0) as [a|] eqn:Ha; [|done]. simpl.
    destruct (Hname _ _ Ha) as (c & Hc & _). rewrite Hc.
    by apply lookup_app_l_Some.
Qed.

Lemma cellByKey_commit st (key name : string) (p : Prep.t) (now : Z) (fuel : nat)
    st' l (k0 : string) :
  indexConsistent st →
  prepByKey st !! key = Some p →
  handleEvent fuel now (SnapshotCommit key name) st = Done (st', l) →
  cellByKey st' k0 =
    if decide (key = k0)
    then Some (Commit.mk (Since now (Prep.T p)) (Prep.Parent p) name key)
    else cellByKey st k0.
Proof.
  intros [Hkey _] Hp. cbn [handleEvent]. rewrite Hp. intros [= <- _].
  unfold cellByKey. cbn [commitByKey heap]. rewrite lookup_insert.
  case_decide as Hn; simpl.
  - by apply list_lookup_middle.
  - destruct (commitByKey st !! k0) as [a|] eqn:Ha; [|done]. simpl.
    destruct (Hkey _ _ Ha) as (c & Hc & _). rewrite Hc.
    by apply lookup_app_l_Some.
Qed.

Lemma commit_frame st (key name : string) (now : Z) (fuel : nat) :
  ∃ st' l,
    handleEvent fuel now (SnapshotCommit key name) st = Done (st', l) ∧
    prepByKey st' = prepByKey st ∧ ∀ K, reportsFor K l = [].
Proof.
  cbn [handleEvent]. destruct (prepByKey st !! key) as [p|]; by eexists _, _.
Qed.

(** One event of the sequence owning [K], [N], [P], handled in the merged
    store [s] and in the store [sO] of that sequence handled alone;
    [sX] is the store of the other sequence handled alone. *)
Lemma step_owner (K N P K' P' : gset string) s sO sX (fuel : nat) (t tO : Z) (e : Event) :
  agree K P s sO → agree K' P' s sX → owns K N P e → K ## K' → N ## P' →
  match handleEvent fuel t e s, handleEvent fuel tO e sO with
  | Done (s', l), Done (sO', lO) =>
      agree K P s' sO' ∧ agree K' P' s' sX ∧
      reportsFor K l = reportsFor K lO ∧ reportsFor K' l = []
  | Diverge, Diverge => True
  | _, _ => False
  end.
Proof.
  intros HA HX Hown HK HN.
  destruct e as [k par|k n|k|n|id image|].
  - (* SnapshotPrepare *)
    destruct Hown as [Hk Hpar]. cbn [handleEvent].
    split; [|split; [|done]].
    + destruct HA as [c1 c2 a1 a2 a3 a4 a5]. split; try done.
      * intros k0 Hk0. cbn [prepByKey]. rewrite !lookup_insert.
        case_decide; [done | by apply a1].
      * intros k0 p0 Hk0. cbn [prepByKey]. rewrite lookup_insert.
        case_decide; [by intros [= <-] | by apply a2].
    + destruct HX as [c1 c2 a1 a2 a3 a4 a5]. split; try done.
      * intros k0 Hk0. cbn [prepByKey].
        rewrite lookup_insert_ne by set_solver. by apply a1.
      * intros k0 p0 Hk0. cbn [prepByKey].
        rewrite lookup_insert_ne by set_solver. by apply a2.
  - (* SnapshotCommit *)
    destruct Hown as [Hk Hn].
    destruct (commit_frame s k n t fuel) as (s' & l & Hev & Hprep & Hrep).
    destruct (commit_frame sO k n tO fuel) as (sO' & lO & HevO & HprepO & HrepO).
    rewrite Hev, HevO. rewrite !Hrep, HrepO.
    pose proof (agree_prep _ _ _ _ HA k Hk) as Hshape.
    destruct (prepByKey s !! k) as [p|] eqn:Hp, (prepByKey sO !! k) as [pO|] eqn:HpO;
      simpl in Hshape; try discriminate Hshape.
    2:{ cbn [handleEvent] in Hev, HevO. rewrite Hp in Hev. rewrite HpO in HevO.
        injection Hev as <- _. injection HevO as <- _. done. }
    injection Hshape as Hshape.
    pose proof (handleEvent_consistent _ _ _ _ _ _ (agree_cons_l _ _ _ _ HA) Hev) as Hc'.
    pose proof (handleEvent_consistent _ _ _ _ _ _ (agree_cons_r _ _ _ _ HA) HevO) as HcO'.
    pose proof (λ n0, cellByName_commit s k n p t fuel s' l n0
                        (agree_cons_l _ _ _ _ HA) Hp Hev) as Hcn.
    pose proof (λ n0, cellByName_commit sO k n pO tO fuel sO' lO n0
                        (agree_cons_r _ _ _ _ HA) HpO HevO) as HcnO.
    pose proof (λ k0, cellByKey_commit s k n p t fuel s' l k0
                        (agree_cons_l _ _ _ _ HA) Hp Hev) as Hck.
    pose proof (λ k0, cellByKey_commit sO k n pO tO fuel sO' lO k0
                        (agree_cons_r _ _ _ _ HA) HpO HevO) as HckO.
    split; [|split; [|done]].
    + destruct HA as [c1 c2 a1 a2 a3 a4 a5]. split; try done.
      * intros k0 Hk0. rewrite Hprep, HprepO. by apply a1.
      * intros k0 p0 Hk0. rewrite Hprep. by apply a2.
      * intros n0 Hn0. rewrite Hcn, HcnO. case_decide; [|by apply a3].
        cbn. unfold eraseDur. cbn. by rewrite Hshape.
      * intros n0 c0 Hn0. rewrite Hcn. case_decide; [|by apply a4].
        intros [= <-]. cbn. by eapply a2.
      * intros k0 Hk0. rewrite Hck, HckO. case_decide; [|by apply a5].
        cbn. unfold eraseDur. cbn. by rewrite Hshape.
    + destruct HX as [c1 c2 a1 a2 a3 a4 a5]. split; try done.
      * intros k0 Hk0. rewrite Hprep. by apply a1.
      * intros k0 p0 Hk0. rewrite Hprep. by apply a2.
      * intros n0 Hn0. rewrite Hcn. case_decide; [set_solver | by apply a3].
      * intros n0 c0 Hn0. rewrite Hcn. case_decide; [set_solver | by apply a4].
      * intros k0 Hk0. rewrite Hck. case_decide; [set_solver | by apply a5].
  - cbn [handleEvent]. done.
  - cbn [handleEvent]. done.
  - (* ContainerCreate *)
    cbn [handleEvent owns] in *.
    pose proof (push_agree K P s sO HA fuel id image Hown) as Hpush.
    destruct (pushContainerMetrics fuel s id image) as [l| |] eqn:Hl,
             (pushContainerMetrics fuel sO id image) as [lO| |] eqn:HlO; try done.
    cbn [mbind result_bind]. split; [done|]. split; [done|].
    unfold reportsFor.
    rewrite (push_about K _ _ _ _ _ Hl), (push_about K _ _ _ _ _ HlO),
            (push_about K' _ _ _ _ _ Hl).
    rewrite !bool_decide_true by done. rewrite bool_decide_false by set_solver.
    done.
  - cbn [handleEvent]. done.
Qed.

Lemma serveLoop_out (fuel : nat) (inputs : list (Z * Input)) :
  ∀ st out,
    serveLoop fuel inputs st out
    = mkRun (store (serveLoop fuel inputs st []))
            (out ++ logs (serveLoop fuel inputs st []))
            (status (serveLoop fuel inputs st [])).
Proof.
  induction inputs as [|[now inp] rest IH]; intros st out; cbn [serveLoop].
  - cbn. by rewrite app_nil_r.
  - destruct inp as [err| | |evt]; cbn [store logs status];
      try (by rewrite app_nil_r).
    + rewrite (IH st (out ++ _)), (IH st ([] ++ _)). cbn [store logs status].
      by rewrite <- app_assoc.
    + destruct (handleEvent fuel now evt st) as [[st' l]| |]; cbn [store logs status];
        try (by rewrite app_nil_r).
      rewrite (IH st' (out ++ l)), (IH st' ([] ++ l)). cbn [store logs status].
      by rewrite <- app_assoc.
Qed.

Lemma runFrom_cons (fuel : nat) (t : Z) (e : Event) (tr : list (Z * Event)) st :
  runFrom fuel ((t, e) :: tr) st
  = match handleEvent fuel t e st with
    | Done (st', l) =>
        mkRun (store (runFrom fuel tr st')) (l ++ logs (runFrom fuel tr st'))
              (status (runFrom fuel tr st'))
    | Panic => mkRun st [] Panicked
    | Diverge => mkRun st [] Diverged
    end.
Proof.
  unfold runFrom. cbn [decode fmap list_fmap serveLoop fst snd].
  destruct (handleEvent fuel t e st) as [[st' l]| |]; [|done..].
  by rewrite serveLoop_out.
Qed.

Lemma reportsFor_app (K : gset string) (l1 l2 : list LogRecord) :
  reportsFor K (l1 ++ l2) = reportsFor K l1 ++ reportsFor K l2.
Proof. unfold reportsFor. by rewrite List.filter_app, fmap_app. Qed.

(** The merged run against the two sequences handled alone. *)
Lemma interleaves_sim (fuel : nat) (KA NA PA KB NB PB : gset string) :
  KA ## KB → NA ## PB → NB ## PA →
  ∀ A B tr, interleaves A B tr →
    Forall (owns KA NA PA) A → Forall (owns KB NB PB) B →
    ∀ s sA sB, agree KA PA s sA → agree KB PB s sB →
      (status (runFrom fuel tr s) = Waiting ↔
         status (runFrom fuel (alone A) sA) = Waiting ∧
         status (runFrom fuel (alone B) sB) = Waiting) ∧
      (status (runFrom fuel tr s) = Waiting →
         agree KA PA (store (runFrom fuel tr s)) (store (runFrom fuel (alone A) sA)) ∧
         agree KB PB (store (runFrom fuel tr s)) (store (runFrom fuel (alone B) sB)) ∧
         reportsFor KA (logs (runFrom fuel tr s))
           = reportsFor KA (logs (runFrom fuel (alone A) sA)) ∧
         reportsFor KB (logs (runFrom fuel tr s))
           = reportsFor KB (logs (runFrom fuel (alone B) sB))).
Proof.
  intros HK HNA HNB A B tr Hint.
  induction Hint as [|t e A B tr Hint IH|t e A B tr Hint IH];
    intros HownA HownB s sA sB HA HB.
  - cbn. done.
  - apply Forall_cons in HownA as [Hown HownA].
    cbn [alone fmap list_fmap]. change ((λ e, (0, e)) <$> A) with (alone A).
    rewrite !runFrom_cons.
    pose proof (step_owner KA NA PA KB PB s sA sB fuel t 0 e HA HB Hown HK HNA) as Hstep.
    destruct (handleEvent fuel t e s) as [[s' l]| |],
             (handleEvent fuel 0 e sA) as [[sA' lA]| |]; try done.
    + destruct Hstep as (HA' & HB' & HrA & HrB).
      destruct (IH HownA HownB s' sA' sB HA' HB') as [Hiff Hres].
      cbn [store logs status]. split; [exact Hiff|].
      intros Hw. destruct (Hres Hw) as (? & ? & H1 & H2).
      split; [done|]. split; [done|]. split.
      * by rewrite !reportsFor_app, HrA, H1.
      * by rewrite reportsFor_app, HrB, H2.
    + cbn [status]. split; [|done]. split; [done | by intros [? _]].
  - apply Forall_cons in HownB as [Hown HownB].
    cbn [alone fmap list_fmap]. change ((λ e, (0, e)) <$> B) with (alone B).
    rewrite !runFrom_cons.
    pose proof (step_owner KB NB PB KA PA s sB sA fuel t 0 e HB HA Hown
                  ltac:(done) HNB) as Hstep.
    destruct (handleEvent fuel t e s) as [[s' l]| |],
             (handleEvent fuel 0 e sB) as [[sB' lB]| |]; try done.
    + destruct Hstep as (HB' & HA' & HrB & HrA).
      destruct (IH HownA HownB s' sA sB' HA' HB') as [Hiff Hres].
      cbn [store logs status]. split; [exact Hiff|].
      intros Hw. destruct (Hres Hw) as (? & ? & H1 & H2).
      split; [done|]. split; [done|]. split.
      * by rewrite reportsFor_app, HrA, H1.
      * by rewrite !reportsFor_app, HrB, H2.
    + cbn [status]. split; [|done]. split; [done | by intros [_ ?]].
Qed.


Lemma owns_all (evts : list Event) :
  Forall (owns (keysOf evts) (namesOf evts) (parentsOf evts)) evts.
Proof.
  apply Forall_forall. intros e He.
  assert (HK : eventKeys e ⊆ keysOf evts).
  { intros k Hk. apply elem_of_union_list. exists (eventKeys e).
    split; [by apply list_elem_of_fmap_2 | done]. }
  assert (HN : eventNames e ⊆ namesOf evts).
  { intros k Hk. apply elem_of_union_list. exists (eventNames e).
    split; [by apply list_elem_of_fmap_2 | done]. }
  assert (HP : eventParents e ⊆ parentsOf evts).
  { intros k Hk. apply elem_of_union_list. exists (eventParents e).
    split; [by apply list_elem_of_fmap_2 | done]. }
  destruct e; cbn in *; set_solver.
Qed.

Lemma agree_init (K P : gset string) : agree K P initStore initStore.
Proof.
  split; try done; apply initStore_consistent.
Qed.

(** Every interleaving against the two sequences handled alone, from the
    empty store. *)
Lemma interleaving_projection (fuel : nat) (A B : list Event) (tr : list (Z * Event)) :
  independent A B → interleaves A B tr →
  (status (runFrom fuel tr initStore) = Waiting ↔
     status (runFrom fuel (alone A) initStore) = Waiting ∧
     status (runFrom fuel (alone B) initStore) = Waiting) ∧
  (status (runFrom fuel tr initStore) = Waiting →
     agree (keysOf A) (parentsOf A)
       (store (runFrom fuel tr initStore)) (store (runFrom fuel (alone A) initStore)) ∧
     agree (keysOf B) (parentsOf B)
       (store (runFrom fuel tr initStore)) (store (runFrom fuel (alone B) initStore)) ∧
     reportsFor (keysOf A) (logs (runFrom fuel tr initStore))
       = reportsFor (keysOf A) (logs (runFrom fuel (alone A) initStore)) ∧
     reportsFor (keysOf B) (logs (runFrom fuel tr initStore))
       = reportsFor (keysOf B) (logs (runFrom fuel (alone B) initStore))).
Proof.
  intros (HK & HPA & HPB) Hint.
  apply (interleaves_sim fuel (keysOf A) (namesOf A) (parentsOf A)
           (keysOf B) (namesOf B) (parentsOf B)); try done;
    try apply owns_all; try apply agree_init.
Qed.

(** Runs without a ContainerCreate do not depend on the budget. *)
Lemma runFrom_quiet (fuel : nat) (tr : list (Z * Event)) :
  forallb (λ te, negb (isCreate te.2)) tr = true →
  ∀ st, runFrom fuel tr st = runFrom 0 tr st.
Proof.
  induction tr as [|[t e] tr IH]; intros Hq st; [done|].
  cbn [forallb] in Hq. apply andb_true_iff in Hq as [He Hq].
  rewrite !runFrom_cons.
  assert (Hev : handleEvent fuel t e st = handleEvent 0 t e st) by by destruct e.
  rewrite Hev. destruct (handleEvent 0 t e st) as [[st' l]| |]; [|done..].
  by rewrite (IH Hq).
Qed.

Lemma runFrom_app (fuel : nat) (tr1 tr2 : list (Z * Event)) :
  ∀ st, status (runFrom fuel tr1 st) = Waiting →
    runFrom fuel (tr1 ++ tr2) st
    = mkRun (store (runFrom fuel tr2 (store (runFrom fuel tr1 st))))
            (logs (runFrom fuel tr1 st)
               ++ logs (runFrom fuel tr2 (store (runFrom fuel tr1 st))))
            (status (runFrom fuel tr2 (store (runFrom fuel tr1 st)))).
Proof.
  induction tr1 as [|[t e] tr1 IH]; intros st Hw.
  - change (runFrom fuel [] st) with (mkRun st [] Waiting).
    cbn [app store logs]. by destruct (runFrom fuel tr2 st).
  - cbn [app]. rewrite !runFrom_cons in *.
    destruct (handleEvent fuel t e st) as [[st' l]| |]; [|done..].
    cbn [status store logs] in *. rewrite (IH st' Hw). cbn [store logs status].
    by rewrite app_assoc.
Qed.

(** C9, the claim at a concrete input.  A one-layer image and, with keys,
    names and parent names of its own, a snapshot committed under the
    name of its own parent.  Handled one after the other, the first image's timeline is
    reported; with the second container created before the first, it is
    never reported, whatever the iteration budget. *)
Lemma hanging_neighbour_hides_report :
  independent oneLayerEvents selfParentEvents ∧
  (namesOf oneLayerEvents ∪ parentsOf oneLayerEvents)
    ## (namesOf selfParentEvents ∪ parentsOf selfParentEvents) ∧
  interleaves oneLayerEvents selfParentEvents oneAfterTheOther ∧
  interleaves oneLayerEvents selfParentEvents createsSwapped ∧
  reportsFor (keysOf oneLayerEvents)
    (logs (serveContainerdMetrics 1 (decode oneAfterTheOther)))
    = [ LogImagePulled "ws1"
          {| Image.Name := "reg/repo/ws1"; Image.TotalPrep := 0;
             Image.Layer := [Layer.mk "L0" 0] |} "r" "L0" ] ∧
  ¬ ∃ fuel, reportsFor (keysOf oneLayerEvents)
              (logs (serveContainerdMetrics fuel (decode createsSwapped))) ≠ [].
Proof.
  split; [|split; [|split; [|split; [|split]]]].
  - repeat split; apply (bool_decide_unpack _); vm_compute; exact I.
  - apply (bool_decide_unpack _); vm_compute; exact I.
  - repeat econstructor.
  - repeat econstructor.
  - vm_compute. reflexivity.
  - intros [fuel Hrep]. apply Hrep.
    change (serveContainerdMetrics fuel (decode createsSwapped))
      with (runFrom fuel createsSwapped initStore).
    unfold createsSwapped.
    assert (Hq : runFrom fuel quietEventsFirst initStore
                 = runFrom 0 quietEventsFirst initStore)
      by (apply runFrom_quiet; vm_compute; reflexivity).
    rewrite runFrom_app by (rewrite Hq; vm_compute; reflexivity).
    rewrite Hq. rewrite runFrom_cons. cbn [handleEvent].
    rewrite (pushContainerMetrics_walkFrom _ fuel "c" _ (Prep.mk 50 "N" ""))
      by (vm_compute; reflexivity).
    cbn [Prep.Parent].
    rewrite (cycle_walk_diverges _ "N" 1) by (lia || (vm_compute; reflexivity)).
    cbn [mbind result_bind logs]. vm_compute. reflexivity.
Qed.

(** C9, amended.  Let [tr1] and [tr2] be two interleavings of the
    independent sequences [A] and [B], each with clock readings of its
    own, handled from the empty store.  If the run over [tr2] gets
    through all its events, so does the run over [tr1], and the two runs
    emit, for the containers of [A] and for those of [B], the same
    records up to durations: same instance ID, image, container ID,
    layer identifiers in the same order.  The cells their indexes hold
    for the keys and parent names of [A] and [B] are the same up to
    durations as well. *)
Theorem interleaving_independence
    (A B : list Event) (tr1 tr2 : list (Z * Event)) (fuel : nat) :
  independent A B →
  interleaves A B tr1 →
  interleaves A B tr2 →
  status (serveContainerdMetrics fuel (decode tr2)) = Waiting →
  status (serveContainerdMetrics fuel (decode tr1)) = Waiting ∧
  reportsFor (keysOf A) (logs (serveContainerdMetrics fuel (decode tr1)))
    = reportsFor (keysOf A) (logs (serveContainerdMetrics fuel (decode tr2))) ∧
  reportsFor (keysOf B) (logs (serveContainerdMetrics fuel (decode tr1)))
    = reportsFor (keysOf B) (logs (serveContainerdMetrics fuel (decode tr2))) ∧
  (∀ k, k ∈ keysOf A ∪ keysOf B →
     eraseDur <$> cellByKey (store (serveContainerdMetrics fuel (decode tr1))) k
     = eraseDur <$> cellByKey (store (serveContainerdMetrics fuel (decode tr2))) k) ∧
  (∀ n, n ∈ parentsOf A ∪ parentsOf B →
     eraseDur <$> cellByName (store (serveContainerdMetrics fuel (decode tr1))) n
     = eraseDur <$> cellByName (store (serveContainerdMetrics fuel (decode tr2))) n).
Proof.
  intros Hind Hint1 Hint2.
  change (serveContainerdMetrics fuel (decode tr1)) with (runFrom fuel tr1 initStore).
  change (serveContainerdMetrics fuel (decode tr2)) with (runFrom fuel tr2 initStore).
  intros Hw2.
  destruct (interleaving_projection fuel A B tr1 Hind Hint1) as [Hiff1 Hres1].
  destruct (interleaving_projection fuel A B tr2 Hind Hint2) as [Hiff2 Hres2].
  assert (Hw1 : status (runFrom fuel tr1 initStore) = Waiting).
  { apply Hiff1, Hiff2, Hw2. }
  destruct (Hres1 Hw1) as (HA1 & HB1 & HrA1 & HrB1).
  destruct (Hres2 Hw2) as (HA2 & HB2 & HrA2 & HrB2).
  split; [exact Hw1|]. split; [by rewrite HrA1, HrA2|]. split; [by rewrite HrB1, HrB2|].
  split.
  - intros k [Hk|Hk]%elem_of_union.
    + by rewrite (agree_key _ _ _ _ HA1 k Hk), (agree_key _ _ _ _ HA2 k Hk).
    + by rewrite (agree_key _ _ _ _ HB1 k Hk), (agree_key _ _ _ _ HB2 k Hk).
  - intros n [Hn|Hn]%elem_of_union.
    + by rewrite (agree_name _ _ _ _ HA1 n Hn), (agree_name _ _ _ _ HA2 n Hn).
    + by rewrite (agree_name _ _ _ _ HB1 n Hn), (agree_name _ _ _ _ HB2 n Hn).
Qed.

Lemma interleaving_independence_witness :
  status (serveContainerdMetrics 1 (decode sideBySide)) = Waiting ∧
  reportsFor (keysOf imageOne) (logs (serveContainerdMetrics 1 (decode sideBySide)))
    = reportsFor (keysOf imageOne) (logs (serveContainerdMetrics 1 (decode inTurn))) ∧
  reportsFor (keysOf imageTwo) (logs (serveContainerdMetrics 1 (decode sideBySide)))
    = reportsFor (keysOf imageTwo) (logs (serveContainerdMetrics 1 (decode inTurn))).
Proof.
  destruct (interleaving_independence imageOne imageTwo sideBySide inTurn 1)
    as (Hw & HA & HB & _).
  - repeat split; apply (bool_decide_unpack _); vm_compute; exact I.
  - repeat econstructor.
  - repeat econstructor.
  - vm_compute; reflexivity.
  - split; [exact Hw|]. split; [exact HA | exact HB].
Defined.

(** * Further properties of the event loop *)

Lemma pushContainerMetrics_no_panic st (fuel : nat) (id image : string) :
  indexConsistent st → pushContainerMetrics fuel st id image ≠ Panic.
Proof.
  intros Hc. destruct (prepByKey st !! id) as [p|] eqn:Hp.
  - rewrite (pushContainerMetrics_walkFrom st fuel id image p Hp).
    assert (Hw : ∀ f name img, walkFrom f st name img ≠ Panic).
    { intros f. induction f as [|f IH]; intros name img; unfold walkFrom;
        rewrite (lookupCommit_cell st name Hc);
        destruct (cellByName st name) as [c|]; cbn [mbind result_bind walk]; try done.
      apply IH. }
    specialize (Hw fuel (Prep.Parent p)
                  {| Image.Name := image; Image.TotalPrep := 0; Image.Layer := [] |}).
    by destruct (walkFrom fuel st (Prep.Parent p) _).
  - unfold pushContainerMetrics. by rewrite Hp.
Qed.

Lemma handleEvent_no_panic st (fuel : nat) (now : Z) (evt : Event) :
  indexConsistent st → handleEvent fuel now evt st ≠ Panic.
Proof.
  intros Hc. destruct evt as [k par|k n|k|n|id image|]; cbn [handleEvent]; try done.
  - by destruct (prepByKey st !! k).
  - pose proof (pushContainerMetrics_no_panic st fuel id image Hc).
    by destruct (pushContainerMetrics fuel st id image).
Qed.

Lemma serveLoop_no_panic (fuel : nat) (inputs : list (Z * Input)) :
  ∀ st out, indexConsistent st → status (serveLoop fuel inputs st out) ≠ Panicked.
Proof.
  induction inputs as [|[now inp] rest IH]; intros st out Hc; cbn [serveLoop]; [done|].
  destruct inp as [err| | |evt]; cbn [status]; try done; [by apply IH|].
  pose proof (handleEvent_no_panic st fuel now evt Hc) as Hnp.
  destruct (handleEvent fuel now evt st) as [[st' l]| |] eqn:Hev; cbn [status]; try done.
  apply IH. by eapply handleEvent_consistent.
Qed.

(** X1.  Whatever inputs arrive after program start and whatever the
    iteration budget, the loop never panics: every pointer held by the
    two commit maps is valid and the swap loop stays within the slice. *)
Theorem serve_never_panics (fuel : nat) (inputs : list (Z * Input)) :
  status (serveContainerdMetrics fuel inputs) ≠ Panicked.
Proof. apply serveLoop_no_panic, initStore_consistent. Qed.

(** Nothing is ever deleted. *)
Lemma handleEvent_grows st (fuel : nat) (now : Z) (evt : Event) st' l :
  handleEvent fuel now evt st = Done (st', l) →
  dom (prepByKey st) ⊆ dom (prepByKey st') ∧
  dom (commitByKey st) ⊆ dom (commitByKey st') ∧
  dom (commitByName st) ⊆ dom (commitByName st').
Proof.
  destruct evt as [k par|k n|k|n|id image|]; cbn [handleEvent];
    try (intros [= <- _]; done).
  - intros [= <- _]. cbn. rewrite dom_insert_L. set_solver.
  - destruct (prepByKey st !! k); intros [= <- _]; [|done].
    cbn. rewrite !dom_insert_L. set_solver.
  - destruct (pushContainerMetrics fuel st id image); [|done..].
    intros [= <- _]. done.
Qed.

Lemma serveLoop_grows (fuel : nat) (inputs : list (Z * Input)) :
  ∀ st out,
    dom (prepByKey st) ⊆ dom (prepByKey (store (serveLoop fuel inputs st out))) ∧
    dom (commitByKey st) ⊆ dom (commitByKey (store (serveLoop fuel inputs st out))) ∧
    dom (commitByName st) ⊆ dom (commitByName (store (serveLoop fuel inputs st out))).
Proof.
  induction inputs as [|[now inp] rest IH]; intros st out; cbn [serveLoop]; [done|].
  destruct inp as [err| | |evt]; cbn [store]; [done | done | apply IH |].
  destruct (handleEvent fuel now evt st) as [[st' l]| |] eqn:Hev; cbn [store]; [|done..].
  destruct (handleEvent_grows _ _ _ _ _ _ Hev) as (H1 & H2 & H3).
  destruct (IH st' (out ++ l)) as (I1 & I2 & I3).
  repeat split; etrans; done.
Qed.

(** X2.  No run of the loop removes an entry from any of the three maps
    or a cell from the heap: the key sets of [prepByKey], [commitByKey]
    and [commitByName] after the run include those before it, and the
    number of Commit cells does not decrease. *)
Theorem maps_only_grow (fuel : nat) (inputs : list (Z * Input)) (st : Store)
    (out : list LogRecord) :
  dom (prepByKey st) ⊆ dom (prepByKey (store (serveLoop fuel inputs st out))) ∧
  dom (commitByKey st) ⊆ dom (commitByKey (store (serveLoop fuel inputs st out))) ∧
  dom (commitByName st) ⊆ dom (commitByName (store (serveLoop fuel inputs st out))) ∧
  (length (heap st) ≤ length (heap (store (serveLoop fuel inputs st out))))%nat.
Proof.
  destruct (serveLoop_grows fuel inputs st out) as (H1 & H2 & H3).
  split; [done|]. split; [done|]. split; [done|].
  destruct (serveLoop_heap fuel inputs st out) as [later ->].
  rewrite length_app. lia.
Qed.

Lemma handleEvent_committedHavePrep st (fuel : nat) (now : Z) (evt : Event) st' l :
  committedHavePrep st → handleEvent fuel now evt st = Done (st', l) →
  committedHavePrep st'.
Proof.
  intros [Hdom Hheap].
  destruct evt as [k par|k n|k|n|id image|]; cbn [handleEvent];
    try (intros [= <- _]; by split).
  - intros [= <- _]. split; cbn [prepByKey commitByKey heap].
    + rewrite dom_insert_L. set_solver.
    + intros c Hc. rewrite dom_insert_L. specialize (Hheap c Hc). set_solver.
  - destruct (prepByKey st !! k) as [p|] eqn:Hp; intros [= <- _]; [|by split].
    assert (Hk : k ∈ dom (prepByKey st)) by (apply elem_of_dom; eauto).
    split; cbn [prepByKey commitByKey heap].
    + rewrite dom_insert_L. apply union_subseteq.
      split; [by apply singleton_subseteq_l | done].
    + intros c [Hc|Hc]%elem_of_app; [by apply Hheap|].
      apply list_elem_of_singleton in Hc as ->. done.
  - destruct (pushContainerMetrics fuel st id image); [|done..].
    intros [= <- _]. by split.
Qed.

Lemma serveLoop_committedHavePrep (fuel : nat) (inputs : list (Z * Input)) :
  ∀ st out, committedHavePrep st →
    committedHavePrep (store (serveLoop fuel inputs st out)).
Proof.
  induction inputs as [|[now inp] rest IH]; intros st out Hst; cbn [serveLoop]; [done|].
  destruct inp as [err| | |evt]; cbn [store]; [done | done | by apply IH |].
  destruct (handleEvent fuel now evt st) as [[st' l]| |] eqn:Hev; cbn [store]; [|done..].
  apply IH. by eapply handleEvent_committedHavePrep.
Qed.

(** X3.  At every point of every run from program start, each key of
    [commitByKey] is a key of [prepByKey], and so is the key of each
    Commit cell ever constructed: no completion exists without a
    recorded start, and the start is still recorded. *)
Theorem every_commit_has_its_prep (fuel : nat) (inputs : list (Z * Input)) :
  committedHavePrep (store (serveContainerdMetrics fuel inputs)).
Proof.
  apply serveLoop_committedHavePrep. split; [done|].
  intros c Hc. cbn in Hc. by apply elem_of_nil in Hc.
Qed.

(** Runs compose, and a run that has left the loop is final. *)
Lemma serveLoop_app (fuel : nat) (pre rest : list (Z * Input)) :
  ∀ st out, status (serveLoop fuel pre st out) = Waiting →
    serveLoop fuel (pre ++ rest) st out
    = serveLoop fuel rest (store (serveLoop fuel pre st out))
                          (logs (serveLoop fuel pre st out)).
Proof.
  induction pre as [|[now inp] pre IH]; intros st out Hw; [done|].
  cbn [app serveLoop] in *.
  destruct inp as [err| | |evt]; try done; [by apply IH|].
  destruct (handleEvent fuel now evt st) as [[st' l]| |]; try done. by apply IH.
Qed.

Lemma serveLoop_final (fuel : nat) (pre rest : list (Z * Input)) :
  ∀ st out, status (serveLoop fuel pre st out) ≠ Waiting →
    serveLoop fuel (pre ++ rest) st out = serveLoop fuel pre st out.
Proof.
  induction pre as [|[now inp] pre IH]; intros st out Hw; [done|].
  cbn [app serveLoop] in *.
  destruct inp as [err| | |evt]; try done; [by apply IH|].
  destruct (handleEvent fuel now evt st) as [[st' l]| |]; try done. by apply IH.
Qed.

Lemma Since_exact (t0 t1 : Z) : 0 <= t0 <= t1 → t1 <= maxDuration → Since t1 t0 = t1 - t0.
Proof.
  unfold Since, subMono, maxDuration. intros H01 H1.
  rewrite wrap64_representable by (unfold minDuration, maxDuration; lia).
  destruct (Z.ltb_spec (t1 - t0) 0); [lia|]. cbn [andb].
  destruct (Z.ltb_spec 0 (t1 - t0)); [|done].
  destruct (Z.ltb_spec t1 t0); [lia|done].
Qed.

Lemma handleEvent_prep_frame st (fuel : nat) (now : Z) (evt : Event) st' l (key : string) :
  preparesKey key (Decoded evt) = false →
  handleEvent fuel now evt st = Done (st', l) →
  prepByKey st' !! key = prepByKey st !! key.
Proof.
  destruct evt as [k par|k n|k|n|id image|]; cbn [handleEvent preparesKey];
    try (intros _ [= <- _]; done).
  - intros Hk%bool_decide_eq_false [= <- _]. cbn. by rewrite lookup_insert_ne.
  - intros _. destruct (prepByKey st !! k); intros [= <- _]; done.
  - intros _. destruct (pushContainerMetrics fuel st id image); [|done..].
    intros [= <- _]. done.
Qed.

Lemma serveLoop_prep_frame (fuel : nat) (key : string) (mid : list (Z * Input)) :
  forallb (λ ti, negb (preparesKey key ti.2)) mid = true →
  ∀ st out, prepByKey (store (serveLoop fuel mid st out)) !! key = prepByKey st !! key.
Proof.
  induction mid as [|[now inp] mid IH]; intros Hq st out; [done|].
  cbn [forallb snd] in Hq. apply andb_true_iff in Hq as [Hk Hq].
  apply negb_true_iff in Hk.
  cbn [serveLoop]. destruct inp as [err| | |evt]; cbn [store]; [done | done | by apply IH |].
  destruct (handleEvent fuel now evt st) as [[st' l]| |] eqn:Hev; cbn [store]; [|done..].
  rewrite (IH Hq). by eapply handleEvent_prep_frame.
Qed.

(** X4.  Start/commit matching.  After a SnapshotPrepare of [key] on
    [parent] handled at [t0], whatever is handled next without preparing
    [key] again, a SnapshotCommit of [key] under [name] handled at [t1]
    constructs the cell with [Dur = time.Since] of [t0] at [t1], the
    parent of the prepare, and the event's name and key; both indexes
    point to it and it is what the debug record shows.  For clock
    readings [0 <= t0 <= t1] within [int64] the duration is [t1 - t0]. *)
Theorem start_commit_matching
    (st : Store) (fuel : nat) (key parent name : string) (t0 t1 : Z)
    (mid : list (Z * Input)) (out : list LogRecord) :
  forallb (λ ti, negb (preparesKey key ti.2)) mid = true →
  status (serveLoop fuel ((t0, Decoded (SnapshotPrepare key parent)) :: mid) st out)
    = Waiting →
  let r := serveLoop fuel
             (((t0, Decoded (SnapshotPrepare key parent)) :: mid)
                ++ [(t1, Decoded (SnapshotCommit key name))]) st out in
  let c := {| Commit.Dur := Since t1 t0; Commit.Parent := parent;
              Commit.Name := name; Commit.Key := key |} in
  status r = Waiting ∧
  cellByKey (store r) key = Some c ∧
  cellByName (store r) name = Some c ∧
  last (logs r) = Some (LogCommit c) ∧
  (0 <= t0 <= t1 → t1 <= maxDuration → Commit.Dur c = t1 - t0).
Proof.
  intros Hmid Hw r c. subst r.
  rewrite (serveLoop_app _ _ _ _ _ Hw).
  set (rm := serveLoop fuel ((t0, Decoded (SnapshotPrepare key parent)) :: mid) st out).
  assert (Hp : prepByKey (store rm) !! key
               = Some {| Prep.T := t0; Prep.Parent := parent; Prep.Name := EmptyString |}).
  { unfold rm. cbn [serveLoop handleEvent].
    rewrite (serveLoop_prep_frame fuel key mid Hmid). cbn. apply lookup_insert_eq. }
  cbn [serveLoop handleEvent]. rewrite Hp. cbn [serveLoop store logs status Prep.T Prep.Parent].
  split; [done|]. split; [|split; [|split]].
  - unfold cellByKey. cbn. rewrite lookup_insert_eq. cbn. by apply list_lookup_middle.
  - unfold cellByName. cbn. rewrite lookup_insert_eq. cbn. by apply list_lookup_middle.
  - by rewrite last_snoc.
  - intros H01 H1. cbn. by apply Since_exact.
Qed.

Lemma start_commit_matching_witness :
  cellByName
    (store (serveLoop 0 [ (100, Decoded (SnapshotPrepare "k" "base"));
                          (110, Decoded (SnapshotPrepare "other" ""));
                          (120, Undecodable);
                          (130, Decoded (SnapshotCommit "other" "L7"));
                          (175, Decoded (SnapshotCommit "k" "L8")) ] initStore []))
    "L8"
  = Some (Commit.mk 75 "base" "L8" "k").
Proof.
  apply (start_commit_matching initStore 0 "k" "base" "L8" 100 175
           [ (110, Decoded (SnapshotPrepare "other" ""));
             (120, Undecodable);
             (130, Decoded (SnapshotCommit "other" "L7")) ] []).
  - vm_compute; reflexivity.
  - vm_compute; reflexivity.
Defined.

(** X5.  A chain of any length, complete or broken.  When following
    parent names from the parent of the container's Prep meets the cells
    [cs] and then a name without entry, a ContainerCreate reports the
    layers of [cs] in reverse order of the walk (the cell found last
    comes first), the [Duration] sum of their [Dur]s, and the instance
    ID of the image name; it leaves the store as it is, for every budget
    of at least [length cs] iterations. *)
Theorem chain_of_any_length
    (st : Store) (cs : list Commit.t) (fuel : nat) (now : Z) (id image : string)
    (p : Prep.t) :
  prepByKey st !! id = Some p →
  chainFrom st (Prep.Parent p) cs →
  (length cs ≤ fuel)%nat →
  handleEvent fuel now (ContainerCreate id image) st
  = Done (st, [ LogImagePulled (instanceIDOf image)
                  {| Image.Name := image;
                     Image.TotalPrep := wrap64 (foldr Z.add 0 (Commit.Dur <$> cs));
                     Image.Layer := rev (layerOf <$> cs) |}
                  id (Prep.Parent p) ]).
Proof.
  intros Hp Hch Hfuel. cbn [handleEvent].
  by rewrite (pushContainerMetrics_chain st cs fuel id image p Hp Hch Hfuel).
Qed.

Lemma chain_of_any_length_witness :
  handleEvent 2 90 (ContainerCreate "c" "registry.example/repo/tag")
    (store (serveContainerdMetrics 0 (firstn 5 scenario)))
  = Done (store (serveContainerdMetrics 0 (firstn 5 scenario)),
          [ LogImagePulled "tag"
              {| Image.Name := "registry.example/repo/tag"; Image.TotalPrep := 55;
                 Image.Layer := [Layer.mk "L0" 15; Layer.mk "L1" 40] |} "c" "L1" ]).
Proof.
  apply (chain_of_any_length (store (serveContainerdMetrics 0 (firstn 5 scenario)))
           [Commit.mk 40 "L0" "L1" "b"; Commit.mk 15 "" "L0" "a"] 2 90 "c"
           "registry.example/repo/tag" (Prep.mk 80 "L1" "")).
  - vm_compute; reflexivity.
  - split; [exists 1%nat; split; vm_compute; reflexivity|].
    split; [exists 0%nat; split; vm_compute; reflexivity|].
    vm_compute; reflexivity.
  - simpl. lia.
Defined.

Lemma sum_rev (ds : list Z) : foldr Z.add 0 (rev ds) = foldr Z.add 0 ds.
Proof.
  induction ds as [|d ds IH]; [done|]. cbn [rev foldr].
  rewrite foldr_app. cbn [foldr].
  assert (Hacc : ∀ (l : list Z) (a : Z), foldr Z.add a l = foldr Z.add 0 l + a).
  { clear. induction l as [|x l IHl]; intros a; cbn [foldr]; [lia|]. rewrite IHl. lia. }
  rewrite Hacc, IH. lia.
Qed.

(** What the loop adds to [img]: layers of cells of the heap, at most one
    per iteration, and their durations to the total. *)
Lemma walkFrom_output st (fuel : nat) :
  ∀ name img img', walkFrom fuel st name img = Done img' →
    Image.Name img' = Image.Name img ∧
    ∃ cs, Image.Layer img' = Image.Layer img ++ (layerOf <$> cs) ∧
          Image.TotalPrep img'
            = fold_left add64 (Commit.Dur <$> cs) (Image.TotalPrep img) ∧
          (length cs ≤ fuel)%nat ∧
          Forall (λ c, c ∈ heap st) cs.
Proof.
  assert (Hl : ∀ name c, lookupCommit st name = Done (Some c) → c ∈ heap st).
  { intros name c. unfold lookupCommit.
    destruct (commitByName st !! name) as [a|]; [|done].
    destruct (heap st !! a) as [c'|] eqn:Ha; [|done].
    intros [= <-]. by eapply list_elem_of_lookup_2. }
  induction fuel as [|fuel IH]; intros name img img'; unfold walkFrom;
    destruct (lookupCommit st name) as [[c|]| |] eqn:Hc;
    cbn [mbind result_bind walk]; try done.
  - intros [= <-]. split; [done|]. exists []. cbn. by rewrite app_nil_r.
  - intros Hw. apply (IH (Commit.Parent c)) in Hw as (Hn & cs & Hlay & Htot & Hlen & Hin).
    cbn [Image.Name Image.Layer Image.TotalPrep] in *. split; [done|].
    exists (c :: cs). cbn [fmap list_fmap fold_left length].
    rewrite Hlay, Htot, <- app_assoc.
    split; [done|]. split; [done|]. split; [lia|].
    constructor; [by eapply Hl | done].
  - intros [= <-]. split; [done|]. exists []. cbn. rewrite app_nil_r.
    split; [done|]. split; [done|]. split; [lia | constructor].
Qed.

(** X6.  What a ContainerCreate can log.  Whenever handling it returns,
    the store is as before and exactly one record was emitted: the debug
    record when the container has no Prep, and otherwise an "image
    pulled" record that carries the event's ID and image name, the
    instance ID of that name, the parent of the container's Prep, as
    many layers as the loop made iterations, each the name and duration
    of a Commit cell of the heap, and as total the [Duration] sum of the
    durations of exactly those layers. *)
Theorem reported_image_shape
    (st st' : Store) (fuel : nat) (now : Z) (id image : string) (l : list LogRecord) :
  handleEvent fuel now (ContainerCreate id image) st = Done (st', l) →
  st' = st ∧
  ((prepByKey st !! id = None ∧ l = [LogImageWithoutPrep image id]) ∨
   (∃ p img,
      prepByKey st !! id = Some p ∧
      l = [LogImagePulled (instanceIDOf image) img id (Prep.Parent p)] ∧
      Image.Name img = image ∧
      Image.TotalPrep img = wrap64 (foldr Z.add 0 (Layer.Prep <$> Image.Layer img)) ∧
      (length (Image.Layer img) ≤ fuel)%nat ∧
      Forall (λ layer, ∃ c, c ∈ heap st ∧ layer = layerOf c) (Image.Layer img))).
Proof.
  cbn [handleEvent].
  destruct (pushContainerMetrics fuel st id image) as [l'| |] eqn:Hpush; [|done..].
  cbn [mbind result_bind]. intros [= <- <-]. split; [done|].
  destruct (prepByKey st !! id) as [p|] eqn:Hp.
  - right. rewrite (pushContainerMetrics_walkFrom st fuel id image p Hp) in Hpush.
    destruct (walkFrom fuel st (Prep.Parent p) _) as [img| |] eqn:Hw; [|done..].
    cbn [mbind result_bind] in Hpush. injection Hpush as <-.
    apply walkFrom_output in Hw as (Hn & cs & Hlay & Htot & Hlen & Hin).
    cbn [Image.Name Image.Layer Image.TotalPrep app] in *.
    exists p. eexists. split; [done|]. rewrite Hn. split; [done|].
    cbn [Image.Name Image.Layer Image.TotalPrep]. split; [done|].
    rewrite Hlay, Htot. split; [|split].
    + change 0 with (wrap64 0) at 1. rewrite add64_fold. f_equal.
      rewrite <- fmap_rev, <- list_fmap_compose.
      rewrite (fmap_rev (Layer.Prep ∘ layerOf)). by rewrite sum_rev.
    + by rewrite length_rev, length_fmap.
    + apply Forall_forall. intros layer Hlayer.
      apply list_elem_of_In, in_rev, list_elem_of_In in Hlayer.
      apply list_elem_of_fmap in Hlayer as (c & -> & Hc).
      exists c. split; [|done]. by eapply Forall_forall in Hin.
  - left. unfold pushContainerMetrics in Hpush. rewrite Hp in Hpush.
    by injection Hpush as <-.
Qed.

Lemma reported_image_shape_witness :
  ∃ p img,
    prepByKey fourLayerStore !! "r" = Some p ∧
    [LogImagePulled "ws1"
       {| Image.Name := "reg/repo/ws1"; Image.TotalPrep := 130;
          Image.Layer := [Layer.mk "base" 10; Layer.mk "L1" 30; Layer.mk "L2" 40;
                          Layer.mk "L3" 50] |} "r" "L3"]
    = [LogImagePulled (instanceIDOf "reg/repo/ws1") img "r" (Prep.Parent p)] ∧
    Image.TotalPrep img = wrap64 (foldr Z.add 0 (Layer.Prep <$> Image.Layer img)).
Proof.
  destruct (reported_image_shape fourLayerStore fourLayerStore 4 180 "r" "reg/repo/ws1"
              [LogImagePulled "ws1"
                 {| Image.Name := "reg/repo/ws1"; Image.TotalPrep := 130;
                    Image.Layer := [Layer.mk "base" 10; Layer.mk "L1" 30;
                                    Layer.mk "L2" 40; Layer.mk "L3" 50] |} "r" "L3"])
    as [_ [[Hnone _]|(p & img & Hp & Hl & _ & Htot & _)]].
  - vm_compute; reflexivity.
  - exfalso. vm_compute in Hnone. discriminate Hnone.
  - exists p, img. done.
Defined.

(** X7.  A cycle within reach is never left.  When some name reached
    from the parent of the container's Prep is its own ancestor, the
    reconstruction is still running after any number of iterations. *)
Theorem reachable_cycle_never_returns
    (st : Store) (fuel : nat) (now : Z) (id image name : string) (p : Prep.t)
    (j k : nat) :
  prepByKey st !! id = Some p →
  ancestor st j (Prep.Parent p) = Some name →
  (0 < k)%nat →
  ancestor st k name = Some name →
  handleEvent fuel now (ContainerCreate id image) st = Diverge.
Proof.
  intros Hp Hreach Hk Hcyc. cbn [handleEvent].
  rewrite (pushContainerMetrics_walkFrom st fuel id image p Hp).
  rewrite total_trail_diverges; [done|]. intros m.
  destruct (decide (m ≤ j)%nat) as [Hle|Hgt].
  - replace j with (m + (j - m))%nat in Hreach by lia.
    rewrite ancestor_add in Hreach.
    destruct (ancestor st m (Prep.Parent p)); [eauto | done].
  - replace m with (j + (m - j))%nat by lia.
    rewrite ancestor_add, Hreach. cbn. by eapply cycle_trail_total.
Qed.

Lemma reachable_cycle_never_returns_witness :
  handleEvent 1000 7 (ContainerCreate "c" "img") selfParentStore = Diverge.
Proof.
  apply (reachable_cycle_never_returns selfParentStore 1000 7 "c" "img" "N"
           (Prep.mk 6 "N" "") 0 1).
  - vm_compute; reflexivity.
  - reflexivity.
  - lia.
  - vm_compute; reflexivity.
Defined.

Lemma silent_run (fuel : nat) (inputs : list (Z * Input)) :
  ∀ st out out',
    List.filter (λ r, negb (passThrough r)) out
      = List.filter (λ r, negb (passThrough r)) out' →
    store (serveLoop fuel inputs st out)
      = store (serveLoop fuel (List.filter (λ ti, negb (silent ti.2)) inputs) st out') ∧
    status (serveLoop fuel inputs st out)
      = status (serveLoop fuel (List.filter (λ ti, negb (silent ti.2)) inputs) st out') ∧
    List.filter (λ r, negb (passThrough r)) (logs (serveLoop fuel inputs st out))
      = List.filter (λ r, negb (passThrough r))
          (logs (serveLoop fuel (List.filter (λ ti, negb (silent ti.2)) inputs) st out')).
Proof.
  induction inputs as [|[now inp] rest IH]; intros st out out' Hout; [done|].
  destruct (silent inp) eqn:Hs; cbn [List.filter snd]; rewrite Hs; cbn [negb].
  - (* a silent input: one more pass-through record on the left *)
    assert (Hstep : ∃ l, serveLoop fuel ((now, inp) :: rest) st out
                         = serveLoop fuel rest st (out ++ l) ∧
                         List.filter (λ r, negb (passThrough r)) l = []).
    { destruct inp as [err| | |[k par|k n|k|n|id image|]]; try discriminate Hs;
        cbn [serveLoop handleEvent]; eexists; (split; [reflexivity | done]). }
    destruct Hstep as (l & -> & Hl). apply IH.
    by rewrite List.filter_app, Hl, app_nil_r.
  - cbn [serveLoop]. destruct inp as [err| | |evt]; try discriminate Hs; try done.
    destruct (handleEvent fuel now evt st) as [[st' l]| |]; try done.
    apply IH. by rewrite !List.filter_app, Hout.
Qed.

(** X9.  Undecodable envelopes and events of the types the loop only
    logs (SnapshotRemove, ImageDelete, any type without a case) leave no
    trace but their own records: dropping them from the inputs changes
    neither the store, nor how the run stands, nor any other record of
    the log. *)
Theorem silent_inputs_leave_no_trace
    (fuel : nat) (inputs : list (Z * Input)) (st : Store) (out : list LogRecord) :
  store (serveLoop fuel inputs st out)
    = store (serveLoop fuel (List.filter (λ ti, negb (silent ti.2)) inputs) st out) ∧
  status (serveLoop fuel inputs st out)
    = status (serveLoop fuel (List.filter (λ ti, negb (silent ti.2)) inputs) st out) ∧
  List.filter (λ r, negb (passThrough r)) (logs (serveLoop fuel inputs st out))
    = List.filter (λ r, negb (passThrough r))
        (logs (serveLoop fuel (List.filter (λ ti, negb (silent ti.2)) inputs) st out)).
Proof. by apply silent_run. Qed.

Lemma handleEvent_writes_fuel st (fuel : nat) (now : Z) (evt : Event) :
  writesStore (Decoded evt) = true →
  handleEvent fuel now evt st = handleEvent 0 now evt st.
Proof. by destruct evt. Qed.

Lemma handleEvent_reads st (fuel : nat) (now : Z) (evt : Event) st' l :
  writesStore (Decoded evt) = false →
  handleEvent fuel now evt st = Done (st', l) → st' = st.
Proof.
  destruct evt as [k par|k n|k|n|id image|]; cbn [writesStore handleEvent];
    try done; try (by intros _ [= <- _]).
  intros _. destruct (pushContainerMetrics fuel st id image); [|done..].
  by intros [= <- _].
Qed.

Lemma serveLoop_store_out (fuel : nat) (inputs : list (Z * Input)) st out :
  store (serveLoop fuel inputs st out) = store (serveLoop fuel inputs st []) ∧
  status (serveLoop fuel inputs st out) = status (serveLoop fuel inputs st []).
Proof. by rewrite (serveLoop_out fuel inputs st out). Qed.

(** X10.  Only prepares and commits write.  When a run gets through all
    its inputs, its store is the one the SnapshotPrepare and
    SnapshotCommit events among them produce on their own, in their
    order and at their clock readings, with no iteration budget at all:
    ContainerCreate and every other input only read. *)
Theorem store_made_by_prepares_and_commits
    (fuel : nat) (inputs : list (Z * Input)) (st : Store) (out : list LogRecord) :
  status (serveLoop fuel inputs st out) = Waiting →
  store (serveLoop fuel inputs st out)
    = store (serveLoop 0 (List.filter (λ ti, writesStore ti.2) inputs) st []) ∧
  status (serveLoop 0 (List.filter (λ ti, writesStore ti.2) inputs) st []) = Waiting.
Proof.
  revert st out. induction inputs as [|[now inp] rest IH]; intros st out Hw; [done|].
  cbn [serveLoop] in Hw.
  destruct inp as [err| | |evt]; try done.
  - cbn [List.filter writesStore snd serveLoop]. by apply IH.
  - destruct (handleEvent fuel now evt st) as [[st' l]| |] eqn:Hev; try done.
    cbn [List.filter snd serveLoop]. rewrite Hev.
    destruct (writesStore (Decoded evt)) eqn:Hwr.
    + cbn [serveLoop]. rewrite <- (handleEvent_writes_fuel st fuel now evt Hwr), Hev.
      destruct (serveLoop_store_out 0 (List.filter (λ ti, writesStore ti.2) rest)
                  st' ([] ++ l)) as [-> ->].
      by eapply IH.
    + rewrite (handleEvent_reads _ _ _ _ _ _ Hwr Hev) in Hw |- *. by eapply IH.
Qed.

Lemma store_made_by_prepares_and_commits_witness :
  store (serveContainerdMetrics 5 scenario)
  = store (serveLoop 0 (firstn 5 scenario) initStore []).
Proof.
  apply (store_made_by_prepares_and_commits 5 scenario initStore []).
  vm_compute; reflexivity.
Defined.

(** X14.  The by-name index is last-writer-wins.  Two matched commits
    of different keys under one name leave [commitByName] pointing to
    the cell of the second, while [commitByKey] still reaches each cell
    under its own key: a later walk through that name follows the
    second cell's parent. *)
Theorem name_reuse_shadows_earlier_commit
    (st : Store) (fuel : nat) (k1 k2 name : string) (p1 p2 : Prep.t) (t1 t2 : Z) :
  indexConsistent st →
  k1 ≠ k2 →
  prepByKey st !! k1 = Some p1 →
  prepByKey st !! k2 = Some p2 →
  let r := serveLoop fuel [ (t1, Decoded (SnapshotCommit k1 name));
                            (t2, Decoded (SnapshotCommit k2 name)) ] st [] in
  let c1 := Commit.mk (Since t1 (Prep.T p1)) (Prep.Parent p1) name k1 in
  let c2 := Commit.mk (Since t2 (Prep.T p2)) (Prep.Parent p2) name k2 in
  status r = Waiting ∧
  cellByName (store r) name = Some c2 ∧
  cellByKey (store r) k1 = Some c1 ∧
  cellByKey (store r) k2 = Some c2 ∧
  parentName (store r) name = Some (Prep.Parent p2).
Proof.
  intros Hc Hne Hp1 Hp2 r c1 c2. subst r. cbn [serveLoop].
  destruct (commit_frame st k1 name t1 fuel) as (s1 & l1 & Hev1 & Hprep1 & _).
  rewrite Hev1.
  pose proof (handleEvent_consistent _ _ _ _ _ _ Hc Hev1) as Hc1.
  assert (Hp2' : prepByKey s1 !! k2 = Some p2) by by rewrite Hprep1.
  destruct (commit_frame s1 k2 name t2 fuel) as (s2 & l2 & Hev2 & Hprep2 & _).
  rewrite Hev2. cbn [serveLoop store status].
  assert (Hn : cellByName s2 name = Some c2).
  { rewrite (cellByName_commit s1 k2 name p2 t2 fuel s2 l2 name Hc1 Hp2' Hev2).
    by rewrite decide_True. }
  split; [done|]. split; [exact Hn|]. split; [|split].
  - rewrite (cellByKey_commit s1 k2 name p2 t2 fuel s2 l2 k1 Hc1 Hp2' Hev2).
    rewrite decide_False by done.
    rewrite (cellByKey_commit st k1 name p1 t1 fuel s1 l1 k1 Hc Hp1 Hev1).
    by rewrite decide_True.
  - rewrite (cellByKey_commit s1 k2 name p2 t2 fuel s2 l2 k2 Hc1 Hp2' Hev2).
    by rewrite decide_True.
  - unfold cellByName in Hn. unfold parentName.
    destruct (commitByName s2 !! name) as [a|]; [|done]. cbn in *. by rewrite Hn.
Qed.

Lemma name_reuse_shadows_earlier_commit_witness :
  cellByName
    (store (serveLoop 0 [ (200, Decoded (SnapshotCommit "a" "dup"));
                          (210, Decoded (SnapshotCommit "b" "dup")) ] fourLayerStore []))
    "dup"
  = Some (Commit.mk 190 "base" "dup" "b").
Proof.
  apply (name_reuse_shadows_earlier_commit fourLayerStore 0 "a" "b" "dup"
           (Prep.mk 0 "" "") (Prep.mk 20 "base" "") 200 210).
  - apply (serveLoop_consistent 0 fourLayerInputs initStore [] initStore_consistent).
  - done.
  - vm_compute; reflexivity.
  - vm_compute; reflexivity.
Defined.

(** * The instance ID of an image reference *)

Lemma splitSlash_length (s : string) : length (splitSlash s) = S (countSlash s).
Proof.
  induction s as [|ch s IH]; [done|]. cbn [splitSlash countSlash].
  destruct (Ascii.eqb ch "/"); cbn [length]; [by rewrite IH|].
  destruct (splitSlash s) as [|seg segs]; [done|]. done.
Qed.

Lemma splitSlash_slashFree (s : string) : slashFree s → splitSlash s = [s].
Proof.
  unfold slashFree. induction s as [|ch s IH]; [done|]. cbn [splitSlash countSlash].
  destruct (Ascii.eqb ch "/"); [done|]. intros Hs. by rewrite IH.
Qed.

Lemma splitSlash_segment (a rest : string) :
  slashFree a → splitSlash (a ++ "/" ++ rest) = a :: splitSlash rest.
Proof.
  unfold slashFree. induction a as [|ch a IH]; [done|].
  change (String ch a ++ "/" ++ rest)%string with (String ch (a ++ "/" ++ rest))%string.
  cbn [splitSlash countSlash].
  destruct (Ascii.eqb ch "/"); [done|]. intros Ha.
  by rewrite IH.
Qed.

Lemma splitSlash_join (s : string) : String.concat "/" (splitSlash s) = s.
Proof.
  induction s as [|ch s IH]; [done|]. cbn [splitSlash].
  pose proof (splitSlash_length s) as Hlen.
  destruct (Ascii.eqb_spec ch "/") as [->|Hne];
    destruct (splitSlash s) as [|seg segs]; try discriminate Hlen.
  - change (String.concat "/" ("" :: seg :: segs))
      with (String "/" (String.concat "/" (seg :: segs))).
    f_equal. exact IH.
  - destruct segs as [|seg' segs].
    + change (String ch seg = String ch s). f_equal. exact IH.
    + change (String ch (seg ++ "/" ++ String.concat "/" (seg' :: segs))%string
              = String ch s).
      f_equal. exact IH.
Qed.

(** X11.  For an image reference of three slash-free segments
    [a/b/c] the instance ID is the third segment. *)
Theorem instanceID_is_third_segment (a b c : string) :
  slashFree a → slashFree b → slashFree c →
  instanceIDOf (a ++ "/" ++ b ++ "/" ++ c) = c.
Proof.
  intros Ha Hb Hc. unfold instanceIDOf.
  rewrite (splitSlash_segment a _ Ha), (splitSlash_segment b _ Hb),
          (splitSlash_slashFree c Hc).
  done.
Qed.

Lemma instanceID_is_third_segment_witness :
  instanceIDOf ("eu.gcr.io" ++ "/" ++ "workspace-images" ++ "/" ++ "9f2c-ws") = "9f2c-ws".
Proof.
  apply (instanceID_is_third_segment "eu.gcr.io" "workspace-images" "9f2c-ws");
    reflexivity.
Defined.

(** X12.  The instance ID is empty unless the image reference has
    exactly two slashes; when it has, the reference is the first two
    segments followed by the instance ID, which holds no slash. *)
Theorem instanceID_needs_two_slashes (s : string) :
  (countSlash s ≠ 2%nat → instanceIDOf s = "") ∧
  (countSlash s = 2%nat →
   ∃ a b : string, slashFree a ∧ slashFree b ∧ slashFree (instanceIDOf s) ∧
          s = (a ++ "/" ++ b ++ "/" ++ instanceIDOf s)%string).
Proof.
  split.
  - intros Hn. unfold instanceIDOf. rewrite splitSlash_length.
    destruct (Nat.eqb_spec (S (countSlash s)) 3); [lia | done].
  - intros Hn.
    assert (Hfree : ∀ t, Forall slashFree (removelast (splitSlash t)) ∧
                         ∀ seg, last (splitSlash t) = Some seg → slashFree seg).
    { clear. unfold slashFree. induction t as [|ch t [IH1 IH2]]; cbn [splitSlash].
      - split; [constructor|]. by intros seg [= <-].
      - pose proof (splitSlash_length t) as Hlen.
        destruct (Ascii.eqb ch "/") eqn:Hch.
        + destruct (splitSlash t) as [|seg segs] eqn:Ht; [done|]. split.
          * cbn [removelast]. constructor; [done | exact IH1].
          * intros seg0. rewrite last_cons. cbn [last] in IH2 |- *.
            destruct (last (seg :: segs)) eqn:Hlast; [|by rewrite last_cons in Hlast;
              destruct (last segs)]. intros [= <-]. by apply IH2.
        + destruct (splitSlash t) as [|seg segs] eqn:Ht; [done|]. split.
          * destruct segs as [|seg' segs]; [constructor|].
            cbn [removelast] in *. apply Forall_cons in IH1 as [H1 H2].
            constructor; [|done]. cbn [countSlash]. by rewrite Hch.
          * intros seg0. destruct segs as [|seg' segs].
            -- intros [= <-]. cbn [countSlash]. rewrite Hch. by apply IH2.
            -- rewrite last_cons_cons. intros Hl. apply IH2.
               by rewrite last_cons_cons. }
    pose proof (splitSlash_length s) as Hlen. rewrite Hn in Hlen.
    pose proof (splitSlash_join s) as Hjoin.
    destruct (Hfree s) as [Hinit Hlast].
    unfold instanceIDOf. rewrite Hlen. cbn [Nat.eqb].
    destruct (splitSlash s) as [|a [|b [|c [|d rest]]]]; try discriminate Hlen.
    cbn [lookup list_lookup default removelast] in *. cbn.
    exists a, b. apply Forall_cons in Hinit as [Ha Hinit].
    apply Forall_cons in Hinit as [Hb _].
    split; [done|]. split; [done|]. split; [by apply Hlast|].
    cbn [String.concat] in Hjoin. done.
Qed.

Lemma instanceID_needs_two_slashes_witness :
  instanceIDOf "docker.io/library/alpine/latest" = "" ∧ instanceIDOf "alpine" = "".
Proof.
  split.
  - apply (proj1 (instanceID_needs_two_slashes "docker.io/library/alpine/latest")).
    vm_compute. lia.
  - apply (proj1 (instanceID_needs_two_slashes "alpine")). vm_compute. lia.
Defined.

(** * The state holder *)

Section HolderFacts.
Context {cluster : State.Cluster}.

Lemma filter_sublist {A : Type} (f : A → bool) (l : list A) :
  List.filter f l `sublist_of` l.
Proof.
  induction l as [|x l IH]; [constructor|]. cbn [List.filter].
  destruct (f x); by constructor.
Qed.

Lemma collect_sublist {T : Type} (assert : State.Object → option T)
    (l1 l2 : list State.Object) :
  l1 `sublist_of` l2 → State.collect assert l1 `sublist_of` State.collect assert l2.
Proof.
  induction 1 as [|x l1 l2 _ IH|x l1 l2 _ IH]; cbn [State.collect].
  - constructor.
  - destruct (assert x); [by constructor | done].
  - destruct (assert x); [by constructor | done].
Qed.

Lemma filter_keeps_idem (sel : option State.Selector) (l : list State.Object) :
  List.filter (State.keeps sel) (List.filter (State.keeps sel) l)
  = List.filter (State.keeps sel) l.
Proof.
  induction l as [|x l IH]; [done|]. cbn [List.filter].
  destruct (State.keeps sel x) eqn:Hx; [|done]. cbn [List.filter].
  by rewrite Hx, IH.
Qed.

(** The loop of [filterWithLabels], by what it returns. *)
Lemma filterLoop_spec (objs : list State.Object) (sel : option State.Selector) :
  ∀ acc,
    match State.filterLoop objs sel acc with
    | inl out =>
        Forall State.accessible objs ∧ out = acc ++ List.filter (State.keeps sel) objs
    | inr err =>
        ∃ pre obj post, objs = pre ++ obj :: post ∧ Forall State.accessible pre ∧
                        State.Accessor obj = inr err
    end.
Proof.
  induction objs as [|obj rest IH]; intros acc; cbn [State.filterLoop List.filter].
  - split; [constructor | by rewrite app_nil_r].
  - unfold State.keeps at 1.
    destruct (State.Accessor obj) as [meta|err] eqn:Hacc.
    + assert (Hobj : State.accessible obj) by by exists meta.
      assert (Hstep : ∀ acc',
        match State.filterLoop rest sel acc' with
        | inl out => Forall State.accessible (obj :: rest) ∧
                     out = acc' ++ List.filter (State.keeps sel) rest
        | inr err => ∃ pre o post, obj :: rest = pre ++ o :: post ∧
                                   Forall State.accessible pre ∧ State.Accessor o = inr err
        end).
      { intros acc'. specialize (IH acc').
        destruct (State.filterLoop rest sel acc') as [out|err].
        - destruct IH as [Hall ->]. split; [by constructor | done].
        - destruct IH as (pre & o & post & -> & Hpre & Ho).
          exists (obj :: pre), o, post. split; [done|]. split; [by constructor | done]. }
      destruct sel as [s|].
      * destruct (State.Matches s (State.GetLabels meta)).
        -- specialize (Hstep (acc ++ [obj])).
           destruct (State.filterLoop rest (Some s) (acc ++ [obj])); [|done].
           destruct Hstep as [Hall ->]. split; [done|]. by rewrite <- app_assoc.
        -- apply Hstep.
      * specialize (Hstep (acc ++ [obj])).
        destruct (State.filterLoop rest None (acc ++ [obj])); [|done].
        destruct Hstep as [Hall ->]. split; [done|]. by rewrite <- app_assoc.
    + exists [], obj, rest. split; [done|]. split; [constructor | done].
Qed.

Lemma filterWithLabels_inl (objs out : list State.Object) (sel : option State.Selector) :
  State.filterWithLabels objs sel = inl out ↔
  Forall State.accessible objs ∧ out = List.filter (State.keeps sel) objs.
Proof.
  unfold State.filterWithLabels.
  pose proof (filterLoop_spec objs sel []) as Hspec.
  destruct (State.filterLoop objs sel []) as [out'|err].
  - destruct Hspec as [Hall ->]. cbn [app]. split.
    + by intros [= <-].
    + by intros [_ ->].
  - destruct Hspec as (pre & obj & post & -> & _ & Hobj). split; [done|].
    intros [Hall _]. apply Forall_app in Hall as [_ Hall].
    apply Forall_cons in Hall as [[meta Hmeta] _]. congruence.
Qed.

Lemma first_unreadable (objs : list State.Object) :
  (∃ obj err, obj ∈ objs ∧ State.Accessor obj = inr err) →
  ∃ pre obj post err, objs = pre ++ obj :: post ∧ Forall State.accessible pre ∧
                      State.Accessor obj = inr err.
Proof.
  induction objs as [|x objs IH]; intros (obj & err & Hin & Hobj).
  - by apply elem_of_nil in Hin.
  - destruct (State.Accessor x) as [meta|e] eqn:Hx.
    + apply elem_of_cons in Hin as [->|Hin]; [congruence|].
      destruct IH as (pre & o & post & e & -> & Hpre & Ho); [by eauto|].
      exists (x :: pre), o, post, e. split; [done|]. split; [|done].
      constructor; [by exists meta | done].
    + exists [], x, objs, e. split; [done|]. split; [constructor | done].
Qed.

Lemma filterWithLabels_inr (objs : list State.Object) (sel : option State.Selector) :
  (∃ err, State.filterWithLabels objs sel = inr err) ↔
  ∃ obj err, obj ∈ objs ∧ State.Accessor obj = inr err.
Proof.
  unfold State.filterWithLabels.
  pose proof (filterLoop_spec objs sel []) as Hspec.
  destruct (State.filterLoop objs sel []) as [out|err'].
  - destruct Hspec as [Hall _]. split; [by intros [? ?]|].
    intros (obj & err & Hin & Hobj).
    eapply Forall_forall in Hall as [meta Hmeta]; [|exact Hin]. congruence.
  - destruct Hspec as (pre & obj & post & -> & _ & Hobj). split; [|by eauto].
    intros _. exists obj, err'. split; [|done].
    apply elem_of_app. right. by apply elem_of_cons; left.
Qed.

(** X15.  [getObjectKey] never qualifies a key: it returns its input
    for every input and default namespace, so [GetConfigMap],
    [GetSecret] and [GetService] look the key up exactly as given,
    whatever namespace the holder was created for. *)
Theorem getObjectKey_returns_input (sh : State.stateHolder) (input defNs key : string) :
  State.getObjectKey input defNs = input ∧
  State.GetConfigMap sh key = State.ConfigMapByKey (State.ConfigMapLister sh) key ∧
  State.GetSecret sh key = State.SecretByKey (State.SecretLister sh) key ∧
  State.GetService sh key = State.ServiceByKey (State.ServiceLister sh) key.
Proof.
  assert (Hid : ∀ i d, State.getObjectKey i d = i).
  { intros i d. unfold State.getObjectKey. by rewrite splitSlash_length. }
  unfold State.GetConfigMap, State.GetSecret, State.GetService.
  by rewrite !Hid.
Qed.

(** X16.  [filterWithLabels] succeeds exactly when the metadata of every
    object can be read, and then returns, in their order, the objects
    the selector matches; with a nil selector it returns the objects
    unchanged. *)
Theorem filterWithLabels_success
    (objs out : list State.Object) (sel : option State.Selector) :
  (State.filterWithLabels objs sel = inl out ↔
   Forall State.accessible objs ∧ out = List.filter (State.keeps sel) objs) ∧
  (Forall State.accessible objs → State.filterWithLabels objs None = inl objs).
Proof.
  split; [apply filterWithLabels_inl|]. intros Hall.
  apply filterWithLabels_inl. split; [done|].
  induction Hall as [|obj rest [meta Hobj] _ IH]; [done|].
  cbn [List.filter]. unfold State.keeps at 1. by rewrite Hobj, <- IH.
Qed.

(** X17.  [filterWithLabels] fails exactly when some object has no
    readable metadata, whether or not the selector would have kept it,
    and the error is that of the first such object. *)
Theorem filterWithLabels_failure
    (objs : list State.Object) (sel : option State.Selector) (err : State.error) :
  State.filterWithLabels objs sel = inr err ↔
  ∃ pre obj post, objs = pre ++ obj :: post ∧ Forall State.accessible pre ∧
                  State.Accessor obj = inr err.
Proof.
  unfold State.filterWithLabels.
  pose proof (filterLoop_spec objs sel []) as Hspec.
  destruct (State.filterLoop objs sel []) as [out|err'].
  - destruct Hspec as [Hall _]. split; [done|].
    intros (pre & obj & post & -> & _ & Hobj).
    apply Forall_app in Hall as [_ Hall].
    apply Forall_cons in Hall as [[meta Hmeta] _]. congruence.
  - destruct Hspec as (pre & obj & post & Hobjs & Hpre & Hobj). split.
    + intros [= <-]. by exists pre, obj, post.
    + intros (pre' & obj' & post' & Hobjs' & Hpre' & Hobj'). f_equal.
      assert (Hsame : pre = pre' ∧ obj = obj').
      { subst objs. clear -Hobjs' Hpre Hpre' Hobj Hobj'.
        revert pre' Hobjs' Hpre'. induction pre as [|x pre IH]; intros pre' Heq Hpre'.
        - destruct pre' as [|y pre']; [by injection Heq as -> _|].
          injection Heq as -> _. apply Forall_cons in Hpre' as [[m Hm] _]. congruence.
        - destruct pre' as [|y pre'].
          + injection Heq as <- _. apply Forall_cons in Hpre as [[m Hm] _]. congruence.
          + injection Heq as -> Heq. apply Forall_cons in Hpre as [_ Hpre].
            apply Forall_cons in Hpre' as [_ Hpre'].
            destruct (IH Hpre pre' Heq Hpre') as [-> ->]. done. }
      destruct Hsame as [_ ->]. congruence.
Qed.

(** X18.  What [filterWithLabels] returns it returns again: the result
    is a sublist of the input, every object in it is kept by the
    selector, and filtering the result once more with the same selector
    changes nothing. *)
Theorem filterWithLabels_idempotent
    (objs out : list State.Object) (sel : option State.Selector) :
  State.filterWithLabels objs sel = inl out →
  out `sublist_of` objs ∧
  Forall (λ obj, State.keeps sel obj = true) out ∧
  State.filterWithLabels out sel = inl out.
Proof.
  intros [Hall ->]%filterWithLabels_inl.
  split; [apply filter_sublist|]. split.
  - apply Forall_forall. intros obj Hobj.
    apply list_elem_of_In, filter_In in Hobj as [_ Hkeep]. done.
  - apply filterWithLabels_inl. split; [|by rewrite filter_keeps_idem].
    apply Forall_forall. intros obj Hobj.
    apply list_elem_of_In, filter_In in Hobj as [Hobj _].
    eapply Forall_forall in Hall; [exact Hall|]. by apply list_elem_of_In.
Qed.

Lemma withListOptions_ok {T : Type} (assert : State.Object → option T)
    (items : list State.Object) (opts : State.ListOptions) :
  Forall State.accessible items →
  ∃ xs, State.withListOptions assert items opts = inl xs ∧
        xs = State.collect assert
               (List.filter (State.keeps (State.Parse (State.LabelSelector opts))) items) ∧
        xs `sublist_of` State.collect assert items ∧
        (State.Parse (State.LabelSelector opts) = None → xs = State.collect assert items).
Proof.
  intros Hall. unfold State.withListOptions.
  rewrite (proj2 (filterWithLabels_inl items _ _) (conj Hall eq_refl)).
  eexists. split; [done|]. split; [done|]. split.
  - apply collect_sublist, filter_sublist.
  - intros ->. f_equal. clear -Hall.
    induction Hall as [|obj rest [meta Hobj] _ IH]; [done|].
    cbn [List.filter]. unfold State.keeps at 1. by rewrite Hobj, IH.
Qed.

Lemma collect_Permutation {T : Type} (assert : State.Object → option T)
    (l1 l2 : list State.Object) :
  l1 ≡ₚ l2 → State.collect assert l1 ≡ₚ State.collect assert l2.
Proof.
  induction 1 as [|x l1 l2 _ IH|x y l|l1 l2 l3 _ IH1 _ IH2]; cbn [State.collect].
  - done.
  - destruct (assert x); [by constructor | done].
  - destruct (assert x), (assert y); try done. apply perm_swap.
  - by etrans.
Qed.

Lemma withListOptions_of_listing {T : Type} (assert : State.Object → option T)
    (plain listed : list State.Object) (opts : State.ListOptions) :
  plain ≡ₚ listed → Forall State.accessible listed →
  ∃ xs, State.withListOptions assert listed opts = inl xs ∧
        xs ⊆+ State.collect assert plain ∧
        (State.Parse (State.LabelSelector opts) = None →
         xs ≡ₚ State.collect assert plain).
Proof.
  intros Hperm Hall.
  destruct (withListOptions_ok assert listed opts Hall) as (xs & Hok & _ & Hsub & Hnil).
  exists xs. split; [done|]. split.
  - rewrite (collect_Permutation assert plain listed Hperm). by apply sublist_submseteq.
  - intros Hparse. rewrite (Hnil Hparse). symmetry. by apply collect_Permutation.
Qed.

(** X19.  Let [sh] and [sh'] be one holder as two calls of [List()] show
    it: the same objects, in any two orders.  When the metadata of every
    listed object can be read, each [...WithListOptions] method on
    [sh'] succeeds and returns, counted with multiplicity, only objects
    that the plain method returns on [sh]; when [labels.Parse] yields no
    selector (its error is discarded), it returns all of them, in
    whatever order its own listing has. *)
Theorem list_options_select_from_plain_listing
    (sh sh' : State.stateHolder) (opts : State.ListOptions) :
  State.ServiceLister sh ≡ₚ State.ServiceLister sh' →
  State.ConfigMapLister sh ≡ₚ State.ConfigMapLister sh' →
  State.PodLister sh ≡ₚ State.PodLister sh' →
  Forall State.accessible (State.ServiceLister sh') →
  Forall State.accessible (State.ConfigMapLister sh') →
  Forall State.accessible (State.PodLister sh') →
  (∃ svcs, State.ServicesWithListOptions sh' opts = inl svcs ∧
           svcs ⊆+ State.Services sh ∧
           (State.Parse (State.LabelSelector opts) = None → svcs ≡ₚ State.Services sh)) ∧
  (∃ cmaps, State.ConfigMapsWithListOptions sh' opts = inl cmaps ∧
            cmaps ⊆+ State.ConfigMaps sh ∧
            (State.Parse (State.LabelSelector opts) = None →
             cmaps ≡ₚ State.ConfigMaps sh)) ∧
  (∃ pods, State.PodsWithListOptions sh' opts = inl pods ∧
           pods ⊆+ State.Pods sh ∧
           (State.Parse (State.LabelSelector opts) = None → pods ≡ₚ State.Pods sh)).
Proof.
  intros Ps Pc Pp Hs Hc Hp.
  split; [|split].
  - apply (withListOptions_of_listing State.asService _ _ opts Ps Hs).
  - apply (withListOptions_of_listing State.asConfigMap _ _ opts Pc Hc).
  - apply (withListOptions_of_listing State.asPod _ _ opts Pp Hp).
Qed.

Lemma withListOptions_err {T : Type} (assert : State.Object → option T)
    (items : list State.Object) (opts : State.ListOptions) :
  (∃ err, State.withListOptions assert items opts = inr err) ↔
  ∃ obj err, obj ∈ items ∧ State.Accessor obj = inr err.
Proof.
  rewrite <- (filterWithLabels_inr items (State.Parse (State.LabelSelector opts))).
  unfold State.withListOptions.
  destruct (State.filterWithLabels items _) as [out|err].
  - split; by intros [? ?].
  - split; by eauto.
Qed.

(** X20.  A [...WithListOptions] method fails exactly when its lister
    holds some object whose metadata cannot be read: an object of any
    type, also one the type assertion would have skipped, and whatever
    the list options say. *)
Theorem list_options_fail_on_unreadable_object
    (sh : State.stateHolder) (opts : State.ListOptions) :
  ((∃ err, State.ServicesWithListOptions sh opts = inr err) ↔
   ∃ obj err, obj ∈ State.ServiceLister sh ∧ State.Accessor obj = inr err) ∧
  ((∃ err, State.ConfigMapsWithListOptions sh opts = inr err) ↔
   ∃ obj err, obj ∈ State.ConfigMapLister sh ∧ State.Accessor obj = inr err) ∧
  ((∃ err, State.PodsWithListOptions sh opts = inr err) ↔
   ∃ obj err, obj ∈ State.PodLister sh ∧ State.Accessor obj = inr err).
Proof. repeat split; apply withListOptions_err. Qed.
End HolderFacts.

Lemma filterWithLabels_idempotent_witness :
  @State.filterWithLabels State.demoCluster
    [State.DemoService "web" ["app"; "tier"]; State.DemoPod "stray" ["app"]]
    (Some "app"%string)
  = inl [State.DemoService "web" ["app"; "tier"]; State.DemoPod "stray" ["app"]].
Proof.
  apply (filterWithLabels_idempotent (cluster := State.demoCluster)
           (State.ServiceLister State.demoHolder)
           [State.DemoService "web" ["app"; "tier"]; State.DemoPod "stray" ["app"]]
           (Some "app"%string)).
  vm_compute; reflexivity.
Defined.

Lemma list_options_select_from_plain_listing_witness :
  ∃ svcs,
    @State.ServicesWithListOptions State.demoCluster State.reorderedHolder
      (State.mkListOptions "!") = inl svcs ∧
    svcs ≡ₚ @State.Services State.demoCluster State.demoHolder.
Proof.
  destruct (list_options_select_from_plain_listing (cluster := State.demoCluster)
              State.demoHolder State.reorderedHolder (State.mkListOptions "!"))
    as [(svcs & Hok & _ & Hall) _].
  - etrans; [apply perm_skip, perm_swap|].
    etrans; [apply perm_swap|]. apply perm_skip, perm_swap.
  - done.
  - apply perm_swap.
  - repeat constructor; eexists; reflexivity.
  - constructor.
  - repeat constructor; eexists; reflexivity.
  - exists svcs. split; [exact Hok | by apply Hall].
Defined.

(** * Chains, completed *)

Lemma lookupCommit_Some_inv st name c :
  lookupCommit st name = Done (Some c) → resolves st name c.
Proof.
  unfold lookupCommit, resolves.
  destruct (commitByName st !! name) as [a|]; [|done].
  destruct (heap st !! a) as [c'|] eqn:Ha; [|done]. intros [= <-]. eauto.
Qed.

Lemma lookupCommit_None_inv st name :
  lookupCommit st name = Done None → commitByName st !! name = None.
Proof.
  unfold lookupCommit. destruct (commitByName st !! name) as [a|]; [|done].
  by destruct (heap st !! a).
Qed.

(** A walk that returns has followed a chain to its end. *)
Lemma walkFrom_chain_complete st (fuel : nat) :
  ∀ name img img', walkFrom fuel st name img = Done img' →
    ∃ cs, chainFrom st name cs ∧ (length cs ≤ fuel)%nat ∧
          img' = {| Image.Name := Image.Name img;
                    Image.TotalPrep := fold_left add64 (Commit.Dur <$> cs) (Image.TotalPrep img);
                    Image.Layer := Image.Layer img ++ (layerOf <$> cs) |}.
Proof.
  induction fuel as [|fuel IH]; intros name img img'; unfold walkFrom;
    destruct (lookupCommit st name) as [[c|]| |] eqn:Hc;
    cbn [mbind result_bind walk]; try done.
  - intros [= <-]. exists []. split; [by apply lookupCommit_None_inv|].
    split; [done|]. cbn. rewrite app_nil_r. by destruct img.
  - intros Hw. apply (IH (Commit.Parent c)) in Hw as (cs & Hch & Hlen & ->).
    exists (c :: cs). split; [split; [by apply lookupCommit_Some_inv | done]|].
    split; [cbn; lia|]. cbn [Image.Name Image.TotalPrep Image.Layer fmap list_fmap fold_left].
    by rewrite <- app_assoc.
  - intros [= <-]. exists []. split; [by apply lookupCommit_None_inv|].
    split; [cbn; lia|]. cbn. rewrite app_nil_r. by destruct img.
Qed.

Lemma chainFrom_ancestor st (cs : list Commit.t) :
  ∀ name (i : nat) c, chainFrom st name cs → cs !! i = Some c →
    ∃ n, ancestor st i name = Some n ∧ resolves st n c.
Proof.
  induction cs as [|c0 cs IH]; intros name i c Hch Hi; [done|].
  destruct Hch as [Hres Hch]. destruct i as [|i].
  - injection Hi as <-. by exists name.
  - cbn [ancestor].
    rewrite (parentName_resolves st name c0 (lookupCommit_resolves _ _ _ Hres)).
    cbn. by eapply IH.
Qed.

(** X22.  A ContainerCreate for a container with a Prep returns, for
    some iteration budget, exactly when following parent names from the
    Prep's parent comes to a name without entry after finitely many
    cells. *)
Theorem create_returns_iff_chain_ends
    (st : Store) (now : Z) (id image : string) (p : Prep.t) :
  prepByKey st !! id = Some p →
  (∃ fuel l, handleEvent fuel now (ContainerCreate id image) st = Done (st, l)) ↔
  (∃ cs, chainFrom st (Prep.Parent p) cs).
Proof.
  intros Hp. split.
  - intros (fuel & l & Hev). cbn [handleEvent] in Hev.
    rewrite (pushContainerMetrics_walkFrom st fuel id image p Hp) in Hev.
    destruct (walkFrom fuel st (Prep.Parent p) _) as [img| |] eqn:Hw; [|done..].
    apply walkFrom_chain_complete in Hw as (cs & Hch & _). by exists cs.
  - intros [cs Hch]. exists (length cs). eexists. cbn [handleEvent].
    by rewrite (pushContainerMetrics_chain st cs (length cs) id image p Hp Hch).
Qed.

Lemma create_returns_iff_chain_ends_witness :
  ∃ cs, chainFrom fourLayerStore "L3" cs.
Proof.
  apply (create_returns_iff_chain_ends fourLayerStore 180 "r" "img" (Prep.mk 170 "L3" "")).
  - vm_compute; reflexivity.
  - exists 4%nat. eexists. vm_compute. reflexivity.
Defined.

(** X21.  Without a cycle no layer is listed twice.  In an acyclic,
    index-consistent store the layer identifiers of a reported image
    are pairwise distinct, and there are at most as many layers as
    [commitByName] has entries. *)
Theorem acyclic_chain_has_no_repeats
    (st st' : Store) (fuel : nat) (now : Z) (id image inst cid par : string)
    (img : Image.t) :
  acyclic st →
  indexConsistent st →
  handleEvent fuel now (ContainerCreate id image) st
    = Done (st', [LogImagePulled inst img cid par]) →
  NoDup (Layer.ID <$> Image.Layer img) ∧
  (length (Image.Layer img) ≤ size (commitByName st))%nat.
Proof.
  intros Hac [_ Hname] Hev. cbn [handleEvent] in Hev.
  destruct (prepByKey st !! id) as [p|] eqn:Hp; cycle 1.
  { unfold pushContainerMetrics in Hev. rewrite Hp in Hev. discriminate Hev. }
  rewrite (pushContainerMetrics_walkFrom st fuel id image p Hp) in Hev.
  destruct (walkFrom fuel st (Prep.Parent p) _) as [img0| |] eqn:Hw; [|done..].
  cbn [mbind result_bind] in Hev. injection Hev as _ _ <- _ _.
  apply walkFrom_chain_complete in Hw as (cs & Hch & _ & ->).
  cbn [Image.Layer]. rewrite app_nil_l.
  assert (Hids : Layer.ID <$> rev (layerOf <$> cs) = rev (Commit.Name <$> cs)).
  { rewrite fmap_rev, <- list_fmap_compose. done. }
  assert (Hanc : ∀ i x, (Commit.Name <$> cs) !! i = Some x →
            ancestor st i (Prep.Parent p) = Some x ∧ is_Some (commitByName st !! x)).
  { intros i x Hi. apply list_lookup_fmap_Some in Hi as (c & -> & Hci).
    destruct (chainFrom_ancestor st cs _ i c Hch Hci) as (n & Hn & a & Ha & Hc).
    destruct (Hname n a Ha) as (c' & Hc' & <-).
    assert (c' = c) by congruence. subst c'. split; [done | by eauto]. }
  assert (Hnd : NoDup (Commit.Name <$> cs)).
  { apply NoDup_alt. intros i j x Hi Hj.
    eapply (acyclic_trail_inj st (Prep.Parent p) i j x Hac).
    - by apply Hanc.
    - by apply Hanc. }
  split.
  - rewrite Hids. by apply NoDup_ListNoDup, List.NoDup_rev, NoDup_ListNoDup.
  - rewrite length_rev, length_fmap, <- (length_fmap Commit.Name).
    rewrite <- size_dom.
    change (size (dom (commitByName st))) with (length (elements (dom (commitByName st)))).
    apply submseteq_length, NoDup_submseteq; [done|].
    intros x Hx. apply list_elem_of_lookup in Hx as [i Hi].
    apply elem_of_elements, elem_of_dom. by apply (Hanc i).
Qed.

Lemma acyclic_chain_has_no_repeats_witness :
  NoDup ["base"; "L1"; "L2"; "L3"]%string.
Proof.
  apply (acyclic_chain_has_no_repeats fourLayerStore fourLayerStore 4 180 "r"
           "reg/repo/ws1" "ws1" "r" "L3"
           {| Image.Name := "reg/repo/ws1"; Image.TotalPrep := 130;
              Image.Layer := [Layer.mk "base" 10; Layer.mk "L1" 30; Layer.mk "L2" 40;
                              Layer.mk "L3" 50] |}).
  - apply walksStop_acyclic. vm_compute; reflexivity.
  - apply (serveLoop_consistent 0 fourLayerInputs initStore [] initStore_consistent).
  - vm_compute; reflexivity.
Defined.

(** X13.  The swap loop.  Run on a slice it never indexes out of range
    and returns the slice reversed; run between two positions it
    reverses what lies between them and leaves the rest in place; run
    twice it gives the slice back. *)
Theorem swap_loop_reverses (s pre mid post : list Layer.t) :
  reverseLayers s = Done (rev s) ∧
  reverseFrom (Z.of_nat (length pre)) (Z.of_nat (length pre + length mid) - 1)
              (pre ++ mid ++ post)
    = Done (pre ++ rev mid ++ post) ∧
  (s' ← reverseLayers s; reverseLayers s') = Done s.
Proof.
  split; [apply reverseLayers_rev|]. split.
  - by apply (reverseFrom_middle (length mid)).
  - rewrite reverseLayers_rev. cbn [mbind result_bind].
    by rewrite reverseLayers_rev, rev_involutive.
Qed.
